(** * BASIC-FUSE: path translation, file-handle lifecycle and I/O forwarding

    A shallow embedding of [basic_fuse.c] (the passthrough FUSE file system
    whose backend directory is [/tmp/fuse_data]) and the properties of its
    operations: [get_full_path], [basic_readdir], [basic_create],
    [basic_open], [basic_read], [basic_write], [basic_rename] and
    [basic_release].

    The backend (the system calls the operations forward to) is an interface,
    [Backend], with what the manual pages promise of its answers in [Linux];
    every call an operation makes is appended, with its answer, to the list of
    observed events, so that statements such as "exactly one close" or "no
    backend rename" are statements about that list. *)

From Stdlib Require Import Ascii String.
From Stdlib Require Import ZArith List Lia Bool.
Import ListNotations.
Local Open Scope Z_scope.

(** ** C integer types (LP64: 32-bit [int], 64-bit [size_t], [off_t], [uint64_t]) *)

Module C.

Definition INT_MAX : Z := 2147483647.

(** Conversion to [int]: the value modulo 2^32, read as two's complement. *)
Definition to_int (z : Z) : Z := (z + 2 ^ 31) mod 2 ^ 32 - 2 ^ 31.

(** Conversion to [size_t] and to [uint64_t]. *)
Definition to_size_t (z : Z) : Z := z mod 2 ^ 64.
Definition to_uint64_t (z : Z) : Z := z mod 2 ^ 64.

(** Conversion to [off_t] (signed, 64 bits). *)
Definition to_off_t (z : Z) : Z := (z + 2 ^ 63) mod 2 ^ 64 - 2 ^ 63.

End C.

(** ** Constants of the system headers (Linux values) *)

Definition EINTR : Z := 4.
Definition EINVAL : Z := 22.
Definition ENOENT : Z := 2.

Definition O_WRONLY : Z := 1.
Definition O_CREAT : Z := 64.     (* 0100 *)
Definition O_APPEND : Z := 1024.  (* 02000 *)

(** [MAX_RW_COUNT], 0x7ffff000: the most bytes one [read] or [write] call
    moves on Linux (read(2), write(2)), on 32-bit and 64-bit systems alike. *)
Definition MAX_RW_COUNT : Z := 2147479552.

(** [PATH_MAX] of [<limits.h>]: the number of bytes of a path, its
    terminating NUL included. *)
Definition PATH_MAX : nat := 4096.

(** ** C strings and bounded formatting *)

Definition NUL : ascii := Ascii.zero.

(** The string a [char *] points to: the bytes before the first NUL. *)
Fixpoint c_str (mem : list ascii) : list ascii :=
  match mem with
  | [] => []
  | c :: rest => if Ascii.eqb c NUL then [] else c :: c_str rest
  end.

(** [snprintf(str, size, ...)], given the bytes the format expands to: at most
    [size - 1] of them are stored, then a NUL; the rest of [str] keeps its
    contents; nothing is stored when [size] is 0. *)
Definition snprintf (str : list ascii) (size : nat) (formatted : list ascii)
  : list ascii :=
  match size with
  | O => str
  | S n =>
      let kept := firstn n formatted in
      kept ++ NUL :: skipn (S (length kept)) str
  end.

(** static const char *DIR_PATH = "/tmp/fuse_data"; *)
Definition DIR_PATH : list ascii := list_ascii_of_string "/tmp/fuse_data".

(** snprintf(fpath_out, out_size, "%s%s", DIR_PATH, path); *)
Definition get_full_path (path fpath_out : list ascii) (out_size : nat)
  : list ascii :=
  snprintf fpath_out out_size (c_str DIR_PATH ++ c_str path).

(** ** The backend interface *)

(** A system call returns -1 and sets [errno], or returns a value. *)
Inductive result (A : Type) : Type :=
| Failed (errno : Z)
| Ok (value : A).
Arguments Failed {A} errno.
Arguments Ok {A} value.

(** The fields of [struct stat] a directory listing carries. *)
Record stat : Type := mkStat {
  st_mode : Z;
  st_size : Z;
  st_mtime : Z
}.

(** [struct fuse_file_info]: the open flags and the file handle. *)
Record fuse_file_info : Type := mkFi {
  flags : Z;   (* int *)
  fh : Z       (* uint64_t *)
}.

(** The calls of an operation, each with the answer it got. *)
Inductive event : Type :=
| Opendir (name : list ascii) (res : result (list (list ascii)))
| Readdir (de : option (list ascii))
| Lstat (pathname : list ascii) (res : result stat)
| Filler (name : list ascii) (st : stat) (off fill_flags : Z) (res : Z)
| Closedir
| Open (pathname : list ascii) (oflags : Z) (mode : option Z) (res : result Z)
| Pread (fd : Z) (count offset : Z) (res : result Z)
| Pwrite (fd : Z) (p : Z) (count offset : Z) (res : result Z)
| Rename (oldpath newpath : list ascii) (res : result unit)
| Close (fd : Z).

(** The system calls the operations use. [W] is the state of the backend
    store. A directory stream is the list of the names it has still to
    return; the buffer of [pwrite] is given by its position [p] in the
    caller's buffer. *)
Class Backend (W : Type) : Type := {
  sys_opendir : W -> list ascii -> result (list (list ascii));
  sys_lstat : W -> list ascii -> result stat;
  sys_open : W -> list ascii -> Z -> option Z -> result Z * W;
  sys_pread : W -> Z -> Z -> Z -> result Z * W;
  sys_pwrite : W -> Z -> Z -> Z -> Z -> result Z * W;
  sys_rename : W -> list ascii -> list ascii -> result unit * W;
  sys_close : W -> Z -> W
}.

(** What the manual pages promise of the answers: [errno] is positive
    (errno(3)); a transfer moves between 0 and [count] bytes, 0 included
    ("zero indicates nothing was written"), and no more than [MAX_RW_COUNT]
    (read(2), write(2)); a descriptor is a non-negative [int] (open(2)). *)
Class Linux {W : Type} (BE : Backend W) : Prop := {
  pwrite_count : forall w fd p count off n w',
    0 <= count -> sys_pwrite w fd p count off = (Ok n, w') ->
    0 <= n <= Z.min count MAX_RW_COUNT;
  pwrite_errno : forall w fd p count off e w',
    sys_pwrite w fd p count off = (Failed e, w') -> 0 < e;
  pread_count : forall w fd count off n w',
    0 <= count -> sys_pread w fd count off = (Ok n, w') ->
    0 <= n <= Z.min count MAX_RW_COUNT;
  pread_errno : forall w fd count off e w',
    sys_pread w fd count off = (Failed e, w') -> 0 < e;
  open_fd : forall w pathname oflags mode fd w',
    sys_open w pathname oflags mode = (Ok fd, w') -> 0 <= fd <= C.INT_MAX;
  open_errno : forall w pathname oflags mode e w',
    sys_open w pathname oflags mode = (Failed e, w') -> 0 < e
}.

(** ** State: the backend store and the events observed so far *)

Record state (W : Type) : Type := mkState {
  backend : W;
  observed : list event
}.
Arguments mkState {W} backend observed.
Arguments backend {W} s.
Arguments observed {W} s.

Definition M (W A : Type) : Type := state W -> A * state W.

Definition ret {W A : Type} (a : A) : M W A := fun s => (a, s).

Definition bind {W A B : Type} (c : M W A) (k : A -> M W B) : M W B :=
  fun s => let (a, s') := c s in k a s'.

Notation "x <- c ;; k" := (bind c (fun x => k))
  (at level 61, c at next level, right associativity).
Notation "c ;;; k" := (bind c (fun _ => k))
  (at level 61, right associativity).

Definition emit {W : Type} (e : event) : M W unit :=
  fun s => (tt, mkState (backend s) (observed s ++ [e])).

(** ** The operations of [basic_fuse.c] *)

Section Operations.

Context {W : Type} {BE : Backend W}.

(** The contents of an automatic array before anything is stored in it
    ([char fpath[PATH_MAX];] is not initialised). *)
Variable indeterminate : nat -> list ascii.

(** The system calls, recorded as events. *)

Definition opendir (name : list ascii) : M W (result (list (list ascii))) :=
  fun s =>
    let r := sys_opendir (backend s) name in
    (r, mkState (backend s) (observed s ++ [Opendir name r])).

Definition lstat (pathname : list ascii) : M W (result stat) :=
  fun s =>
    let r := sys_lstat (backend s) pathname in
    (r, mkState (backend s) (observed s ++ [Lstat pathname r])).

Definition open (pathname : list ascii) (oflags : Z) (mode : option Z)
  : M W (result Z) :=
  fun s =>
    let (r, w) := sys_open (backend s) pathname oflags mode in
    (r, mkState w (observed s ++ [Open pathname oflags mode r])).

Definition pread (fd count offset : Z) : M W (result Z) :=
  fun s =>
    let (r, w) := sys_pread (backend s) fd count offset in
    (r, mkState w (observed s ++ [Pread fd count offset r])).

Definition pwrite (fd p count offset : Z) : M W (result Z) :=
  fun s =>
    let (r, w) := sys_pwrite (backend s) fd p count offset in
    (r, mkState w (observed s ++ [Pwrite fd p count offset r])).

Definition rename (oldpath newpath : list ascii) : M W (result unit) :=
  fun s =>
    let (r, w) := sys_rename (backend s) oldpath newpath in
    (r, mkState w (observed s ++ [Rename oldpath newpath r])).

Definition close (fd : Z) : M W unit :=
  fun s => (tt, mkState (sys_close (backend s) fd) (observed s ++ [Close fd])).

(** *** readdir *)

Section Readdir.

(** [buf] and [filler]: the consumer's buffer and its callback
    ([fuse_fill_dir_t]), which returns non-zero to stop the listing. *)
Context {B : Type}.
Variable filler : B -> list ascii -> stat -> Z -> Z -> Z * B.

Definition fill (buf : B) (name : list ascii) (st : stat) (off fl : Z)
  : M W (Z * B) :=
  fun s =>
    let (r, buf') := filler buf name st off fl in
    ((r, buf'),
     mkState (backend s) (observed s ++ [Filler name st off fl r])).

(** while ((de = readdir(dp)) != NULL) { ... } over the stream [dp]. *)
Fixpoint readdir_loop (fpath : list ascii) (dp : list (list ascii))
  (buf : B) : M W B :=
  match dp with
  | [] => emit (Readdir None) ;;; ret buf
  | d_name :: dp' =>
      emit (Readdir (Some d_name)) ;;;
      let child :=
        snprintf (indeterminate PATH_MAX) PATH_MAX
          (c_str fpath ++ "/"%char :: c_str d_name) in
      r <- lstat (c_str child) ;;
      match r with
      | Failed _ => readdir_loop fpath dp' buf          (* continue *)
      | Ok st =>
          rb <- fill buf d_name st 0 0 ;;
          if fst rb =? 0 then readdir_loop fpath dp' (snd rb)
          else ret (snd rb)                             (* break *)
      end
  end.

(** static int basic_readdir(path, buf, filler, offset, fi, flags):
    [offset], [fi] and [flags] play no part. The result is the [int] returned
    and the consumer's buffer as the callback left it. *)
Definition basic_readdir (path : list ascii) (buf : B) : M W (Z * B) :=
  let fpath := get_full_path path (indeterminate PATH_MAX) PATH_MAX in
  dp <- opendir (c_str fpath) ;;
  match dp with
  | Failed errno => ret (- errno, buf)
  | Ok dp =>
      buf' <- readdir_loop fpath dp buf ;;
      emit Closedir ;;;
      ret (0, buf')
  end.

End Readdir.

(** *** create, open

    [fi] is the [struct fuse_file_info] the mount layer passes (never NULL
    for these operations); the result is the [int] returned and [*fi] as the
    operation left it. *)

Definition basic_create (path : list ascii) (mode : Z) (fi : fuse_file_info)
  : M W (Z * fuse_file_info) :=
  let fpath := get_full_path path (indeterminate PATH_MAX) PATH_MAX in
  let oflags := Z.lor O_CREAT O_WRONLY in
  let oflags :=
    if Z.land (flags fi) O_APPEND =? 0 then oflags
    else Z.lor oflags O_APPEND in
  fd <- open (c_str fpath) oflags (Some mode) ;;
  match fd with
  | Failed errno => ret (- errno, fi)
  | Ok fd => ret (0, mkFi (flags fi) (C.to_uint64_t fd))
  end.

Definition basic_open (path : list ascii) (fi : fuse_file_info)
  : M W (Z * fuse_file_info) :=
  let fpath := get_full_path path (indeterminate PATH_MAX) PATH_MAX in
  fd <- open (c_str fpath) (flags fi) None ;;
  match fd with
  | Failed errno => ret (- errno, fi)
  | Ok fd => ret (0, mkFi (flags fi) (C.to_uint64_t fd))
  end.

(** *** read

    static int basic_read(path, buf, size, offset, fi): [path] plays no part,
    and the bytes stored in [buf] are the backend's business. *)

Definition basic_read (fi : fuse_file_info) (size offset : Z) : M W Z :=
  res <- pread (C.to_int (fh fi)) size offset ;;
  match res with
  | Failed errno => ret (- errno)
  | Ok res => ret (C.to_int res)
  end.

(** *** write

    static int basic_write(path, buf, size, offset, fi): [path] plays no
    part; [p] is the position in [buf] of the next byte to write.

    The loop [while (to_write > 0)] has no bound of its own; [fuel] is the
    number of [pwrite] calls the run is followed for, and the answer is
    [None] when the loop is still running after that many. [to_write] is a
    [size_t] and [off] an [off_t]: the updates are taken in these types. *)

Fixpoint write_loop (fuel : nat) (fd size to_write p off : Z)
  : M W (option Z) :=
  if to_write >? 0 then
    match fuel with
    | O => ret None
    | S fuel' =>
        written <- pwrite fd p to_write off ;;
        match written with
        | Failed errno =>
            if errno =? EINTR then write_loop fuel' fd size to_write p off
            else ret (Some (- errno))
        | Ok written =>
            write_loop fuel' fd size
              (C.to_size_t (to_write - written))
              (p + written)
              (C.to_off_t (off + written))
        end
    end
  else ret (Some (C.to_int size)).

Definition basic_write (fuel : nat) (fi : fuse_file_info) (size offset : Z)
  : M W (option Z) :=
  write_loop fuel (C.to_int (fh fi)) size size 0 offset.

(** *** rename

    [rflags] is the [unsigned int flags] of the operation. *)

Definition basic_rename (from to : list ascii) (rflags : Z) : M W Z :=
  if negb (rflags =? 0) then ret (- EINVAL)
  else
    let ffrom := get_full_path from (indeterminate PATH_MAX) PATH_MAX in
    let fto := get_full_path to (indeterminate PATH_MAX) PATH_MAX in
    r <- rename (c_str ffrom) (c_str fto) ;;
    match r with
    | Failed errno => ret (- errno)
    | Ok _ => ret 0
    end.

(** *** release

    static int basic_release(path, fi): [path] plays no part. *)

Definition basic_release (fi : fuse_file_info) : M W (Z * fuse_file_info) :=
  let fd := C.to_int (fh fi) in
  if fd >=? 0 then
    close fd ;;;
    ret (0, mkFi (flags fi) 0)
  else ret (0, fi).

(** *** A session: open or create, some reads and writes, release

    No function of [basic_fuse.c]: the order in which the mount layer calls
    the operations above on one [fuse_file_info]. Release is called once,
    after every read and write, and only when the open or create returned
    0. *)

Inductive opener : Type :=
| ByOpen
| ByCreate (mode : Z).

Inductive request : Type :=
| DoRead (size offset : Z)
| DoWrite (fuel : nat) (size offset : Z).

Definition serve (fi : fuse_file_info) (rq : request) : M W unit :=
  match rq with
  | DoRead size offset => basic_read fi size offset ;;; ret tt
  | DoWrite fuel size offset => basic_write fuel fi size offset ;;; ret tt
  end.

Fixpoint serve_all (fi : fuse_file_info) (rqs : list request) : M W unit :=
  match rqs with
  | [] => ret tt
  | rq :: rqs' => serve fi rq ;;; serve_all fi rqs'
  end.

Definition session (how : opener) (path : list ascii) (fi : fuse_file_info)
  (rqs : list request) : M W (Z * fuse_file_info) :=
  o <- match how with
       | ByOpen => basic_open path fi
       | ByCreate mode => basic_create path mode fi
       end ;;
  if fst o =? 0 then
    serve_all (snd o) rqs ;;;
    basic_release (snd o)
  else ret o.

End Operations.

(** ** Reading the observed events *)

(** The events observed from state [s] to state [s']. *)
Definition since {W : Type} (s s' : state W) : list event :=
  skipn (List.length (observed s)) (observed s').

(** A read or a write on descriptor [fd]. *)
Definition is_io (fd : Z) (e : event) : bool :=
  match e with
  | Pread fd' _ _ _ | Pwrite fd' _ _ _ _ => fd' =? fd
  | _ => false
  end.

(** The bytes a [pwrite] moved. *)
Definition accepted (e : event) : Z :=
  match e with
  | Pwrite _ _ _ _ (Ok n) => n
  | _ => 0
  end.

Definition total_accepted (evs : list event) : Z :=
  fold_right (fun e a => accepted e + a) 0 evs.

(** A [pwrite] that failed with another error than [EINTR]. *)
Definition hard_error (e : event) : bool :=
  match e with
  | Pwrite _ _ _ _ (Failed errno) => negb (errno =? EINTR)
  | _ => false
  end.

Definition no_hard_error (evs : list event) : bool :=
  forallb (fun e => negb (hard_error e)) evs.

(** A [pwrite] that moved nothing: interrupted, or zero bytes accepted. *)
Definition stalled (e : event) : bool :=
  match e with
  | Pwrite _ _ _ _ (Failed errno) => errno =? EINTR
  | Pwrite _ _ _ _ (Ok n) => n =? 0
  | _ => false
  end.

Definition stalls (evs : list event) : nat := List.length (filter stalled evs).

(** The discipline of the retry loop, read off the events of one write of
    [remaining] bytes to [fd]: every call is a [pwrite] to [fd] of exactly the
    bytes that remain, at least one; after [n] accepted bytes [n] fewer
    remain; after [EINTR] as many remain; after another error no call
    follows. *)
Fixpoint retry_discipline (fd remaining : Z) (evs : list event) : bool :=
  match evs with
  | [] => true
  | Pwrite fd' _ count _ res :: evs' =>
      (fd' =? fd) && (count =? remaining) && (0 <? remaining) &&
      match res with
      | Ok n => (0 <=? n) && (n <=? remaining) && retry_discipline fd (remaining - n) evs'
      | Failed errno =>
          if errno =? EINTR then retry_discipline fd remaining evs'
          else match evs' with [] => true | _ :: _ => false end
      end
  | _ :: _ => false
  end.

(** The descriptors closed, in order. *)
Definition closes (evs : list event) : list Z :=
  flat_map (fun e => match e with Close fd => [fd] | _ => [] end) evs.

(** The entries handed to the consumer's callback, in order. *)
Definition offered (evs : list event) : list (list ascii * stat) :=
  flat_map (fun e => match e with
                     | Filler name st _ _ _ => [(name, st)]
                     | _ => []
                     end) evs.

(** The states of a session (Closed, Open, Closed), followed along the
    events: an [open] that succeeds binds its descriptor, a [close] of that
    descriptor ends the session. *)
Inductive session_state : Type :=
| Fresh
| Opened (fd : Z)
| Closed (fd : Z).

Definition session_step (st : session_state) (e : event) : session_state :=
  match st, e with
  | Fresh, Open _ _ _ (Ok fd) => Opened fd
  | Opened fd, Close fd' => if fd' =? fd then Closed fd else st
  | _, _ => st
  end.

Definition session_state_after (evs : list event) : session_state :=
  fold_left session_step evs Fresh.

(** The listing a consumer gets from the entries whose metadata resolves:
    they are handed over in order until its callback answers non-zero. *)
Fixpoint feed {B : Type} (filler : B -> list ascii -> stat -> Z -> Z -> Z * B)
  (buf : B) (entries : list (list ascii * stat)) : list (list ascii * stat) * B :=
  match entries with
  | [] => ([], buf)
  | (name, st) :: rest =>
      let (r, buf') := filler buf name st 0 0 in
      if r =? 0 then
        let (given, buf'') := feed filler buf' rest in ((name, st) :: given, buf'')
      else ([(name, st)], buf')
  end.

(** The path [basic_readdir] resolves for an entry: "%s/%s" of the directory
    and the name, in a buffer of [PATH_MAX] bytes. *)
Definition child_path (indeterminate : nat -> list ascii)
  (fpath d_name : list ascii) : list ascii :=
  c_str (snprintf (indeterminate PATH_MAX) PATH_MAX
           (c_str fpath ++ "/"%char :: c_str d_name)).

(** The raw entries of a stream whose metadata the backend resolves. *)
Definition resolvable {W : Type} {BE : Backend W} (w : W)
  (indeterminate : nat -> list ascii) (fpath : list ascii)
  (dp : list (list ascii)) : list (list ascii * stat) :=
  flat_map (fun d_name =>
              match sys_lstat w (child_path indeterminate fpath d_name) with
              | Ok st => [(d_name, st)]
              | Failed _ => []
              end) dp.

(** ** A scripted backend

    A backend store for examples: [open], [pread] and [pwrite] take their
    answers from a script, in order, and [idle] once it is used up; an answer
    [Ok n] to a transfer of [count] bytes moves [n] of them, [count] and
    [MAX_RW_COUNT] at most. *)

Record mock : Type := mkMock {
  script : list (result Z);
  idle : result Z;
  dirs : list (list ascii * list (list ascii));
  inodes : list (list ascii * stat);
  rename_answer : result unit
}.

Fixpoint same_string (a b : list ascii) : bool :=
  match a, b with
  | [], [] => true
  | x :: a', y :: b' => Ascii.eqb x y && same_string a' b'
  | _, _ => false
  end.

Fixpoint lookup {A : Type} (key : list ascii) (table : list (list ascii * A))
  : option A :=
  match table with
  | [] => None
  | (k, v) :: rest => if same_string k key then Some v else lookup key rest
  end.

Definition next_answer (m : mock) : result Z * mock :=
  match script m with
  | [] => (idle m, m)
  | r :: rest => (r, mkMock rest (idle m) (dirs m) (inodes m) (rename_answer m))
  end.

Definition within (lo hi : Z) (r : result Z) : result Z :=
  match r with
  | Failed errno => Failed (Z.max 1 errno)
  | Ok n => Ok (Z.max lo (Z.min n hi))
  end.

#[export] Instance mock_backend : Backend mock := {
  sys_opendir m name :=
    match lookup name (dirs m) with
    | Some names => Ok names
    | None => Failed ENOENT
    end;
  sys_lstat m pathname :=
    match lookup pathname (inodes m) with
    | Some st => Ok st
    | None => Failed ENOENT
    end;
  sys_open m _ _ _ :=
    let (r, m') := next_answer m in (within 0 C.INT_MAX r, m');
  sys_pread m _ count _ :=
    let (r, m') := next_answer m in
    (within 0 (Z.min count MAX_RW_COUNT) r, m');
  sys_pwrite m _ _ count _ :=
    let (r, m') := next_answer m in
    (within 0 (Z.min count MAX_RW_COUNT) r, m');
  sys_rename m _ _ := (rename_answer m, m);
  sys_close m _ := m
}.

(** A consumer whose buffer holds [room] entries: the callback stores the
    entry and answers 0, or answers 1 when the buffer is full. *)
Definition bounded_filler (room : nat) (buf : list (list ascii * stat))
  (name : list ascii) (st : stat) (off fl : Z)
  : Z * list (list ascii * stat) :=
  if (List.length buf <? room)%nat then (0, buf ++ [(name, st)]) else (1, buf).

(** Automatic arrays filled with ['?']. *)
Definition question_marks (n : nat) : list ascii := repeat "?"%char n.

Definition chars (s : string) : list ascii := list_ascii_of_string s.

(** *** Example stores and handles *)

(** A backend that takes 4 bytes, is interrupted, takes nothing, then takes
    what is left. *)
Definition stuttering : mock :=
  mkMock [Ok 4; Failed EINTR; Ok 0; Ok 100] (Ok 0) [] [] (Ok tt).

(** A backend that takes 4 bytes, then fails with [EIO] (5). *)
Definition failing : mock :=
  mkMock [Ok 4; Failed 5] (Ok 0) [] [] (Ok tt).

(** A backend that moves every byte it is asked for, [MAX_RW_COUNT] at a
    time. *)
Definition greedy : mock := mkMock [] (Ok (2 ^ 62)) [] [] (Ok tt).

(** A backend that accepts no byte, at every call. *)
Definition stuck : mock := mkMock [] (Ok 0) [] [] (Ok tt).

(** A backend whose every call is interrupted. *)
Definition interrupted : mock := mkMock [] (Failed EINTR) [] [] (Ok tt).

(** A backend whose [open] returns descriptor 7, and whose transfers then
    move 2 bytes, then 1 byte at a time. *)
Definition one_file : mock := mkMock [Ok 7; Ok 2] (Ok 1) [] [] (Ok tt).

Definition regular (size : Z) : stat := mkStat 33188 size 0.

(** The directory [/tmp/fuse_data/d] with the entries [a], [b] and [c]; [b]
    is in the listing and cannot be resolved. *)
Definition broken_entry : mock :=
  mkMock [] (Ok 0)
    [(chars "/tmp/fuse_data/d", [chars "a"; chars "b"; chars "c"])]
    [(chars "/tmp/fuse_data/d/a", regular 1);
     (chars "/tmp/fuse_data/d/c", regular 3)]
    (Ok tt).

(** The same directory with every entry resolvable. *)
Definition three_entries : mock :=
  mkMock [] (Ok 0)
    [(chars "/tmp/fuse_data/d", [chars "a"; chars "b"; chars "c"])]
    [(chars "/tmp/fuse_data/d/a", regular 1);
     (chars "/tmp/fuse_data/d/b", regular 2);
     (chars "/tmp/fuse_data/d/c", regular 3)]
    (Ok tt).

(** The same directory with no entry resolvable. *)
Definition all_broken : mock :=
  mkMock [] (Ok 0)
    [(chars "/tmp/fuse_data/d", [chars "a"; chars "b"; chars "c"])]
    [] (Ok tt).

(** A handle whose descriptor is 3. *)
Definition handle3 : fuse_file_info := mkFi 0 3.

(** A state in which nothing has been observed yet. *)
Definition initially (m : mock) : state mock := mkState m [].

(** ** The other operations of the table *)

Section MoreOperations.

Context {W : Type} {BE : Backend W}.
Variable indeterminate : nat -> list ascii.

(** static int basic_getattr(path, stbuf, fi): [fi] plays no part. The result
    is the [int] returned and [*stbuf], which [lstat] fills when it
    succeeds. *)
Definition basic_getattr (path : list ascii) (stbuf : stat) : M W (Z * stat) :=
  let fpath := get_full_path path (indeterminate PATH_MAX) PATH_MAX in
  r <- lstat (c_str fpath) ;;
  match r with
  | Failed errno => ret (- errno, stbuf)
  | Ok st => ret (0, st)
  end.

End MoreOperations.

(** *** unlink, mkdir, rmdir, chmod, truncate, utimens *)

(** [struct timespec]. *)
Record timespec : Type := mkTimespec {
  tv_sec : Z;
  tv_nsec : Z
}.

(** [AT_FDCWD] of [<fcntl.h>] (Linux value). *)
Definition AT_FDCWD : Z := -100.

Definition EEXIST : Z := 17.

(** The system calls of these operations, on the state [W] of the store. *)
Class MetadataCalls (W : Type) : Type := {
  sys_unlink : W -> list ascii -> result unit * W;
  sys_mkdir : W -> list ascii -> Z -> result unit * W;
  sys_rmdir : W -> list ascii -> result unit * W;
  sys_chmod : W -> list ascii -> Z -> result unit * W;
  sys_truncate : W -> list ascii -> Z -> result unit * W;
  sys_utimensat :
    W -> Z -> list ascii -> timespec * timespec -> Z -> result unit * W
}.

(** [errno] is positive when one of them fails (errno(3)). *)
Class MetadataErrno {W : Type} (MC : MetadataCalls W) : Prop := {
  unlink_errno : forall w pathname e w',
    sys_unlink w pathname = (Failed e, w') -> 0 < e;
  mkdir_errno : forall w pathname mode e w',
    sys_mkdir w pathname mode = (Failed e, w') -> 0 < e;
  rmdir_errno : forall w pathname e w',
    sys_rmdir w pathname = (Failed e, w') -> 0 < e;
  chmod_errno : forall w pathname mode e w',
    sys_chmod w pathname mode = (Failed e, w') -> 0 < e;
  truncate_errno : forall w pathname length e w',
    sys_truncate w pathname length = (Failed e, w') -> 0 < e;
  utimensat_errno : forall w dirfd pathname times fl e w',
    sys_utimensat w dirfd pathname times fl = (Failed e, w') -> 0 < e
}.

Section MetadataOperations.

Context {W : Type} {MC : MetadataCalls W}.
Variable indeterminate : nat -> list ascii.

(** Each operation is one call on the translated path; the result is the
    [int] returned and the store as the call left it. *)

Definition basic_unlink (path : list ascii) (w : W) : Z * W :=
  let fpath := get_full_path path (indeterminate PATH_MAX) PATH_MAX in
  let (r, w') := sys_unlink w (c_str fpath) in
  match r with
  | Failed errno => (- errno, w')
  | Ok _ => (0, w')
  end.

Definition basic_mkdir (path : list ascii) (mode : Z) (w : W) : Z * W :=
  let fpath := get_full_path path (indeterminate PATH_MAX) PATH_MAX in
  let (r, w') := sys_mkdir w (c_str fpath) mode in
  match r with
  | Failed errno => (- errno, w')
  | Ok _ => (0, w')
  end.

Definition basic_rmdir (path : list ascii) (w : W) : Z * W :=
  let fpath := get_full_path path (indeterminate PATH_MAX) PATH_MAX in
  let (r, w') := sys_rmdir w (c_str fpath) in
  match r with
  | Failed errno => (- errno, w')
  | Ok _ => (0, w')
  end.

(** [fi] plays no part in [basic_chmod], [basic_truncate] and
    [basic_utimens]. *)
Definition basic_chmod (path : list ascii) (mode : Z) (w : W) : Z * W :=
  let fpath := get_full_path path (indeterminate PATH_MAX) PATH_MAX in
  let (r, w') := sys_chmod w (c_str fpath) mode in
  match r with
  | Failed errno => (- errno, w')
  | Ok _ => (0, w')
  end.

Definition basic_truncate (path : list ascii) (size : Z) (w : W) : Z * W :=
  let fpath := get_full_path path (indeterminate PATH_MAX) PATH_MAX in
  let (r, w') := sys_truncate w (c_str fpath) size in
  match r with
  | Failed errno => (- errno, w')
  | Ok _ => (0, w')
  end.

(** utimensat(AT_FDCWD, fpath, ts, 0) *)
Definition basic_utimens (path : list ascii) (ts : timespec * timespec)
  (w : W) : Z * W :=
  let fpath := get_full_path path (indeterminate PATH_MAX) PATH_MAX in
  let (r, w') := sys_utimensat w AT_FDCWD (c_str fpath) ts 0 in
  match r with
  | Failed errno => (- errno, w')
  | Ok _ => (0, w')
  end.

(** A call of one of the six operations, by its name in the table. *)
Inductive metadata_request : Type :=
| Unlink (path : list ascii)
| Mkdir (path : list ascii) (mode : Z)
| Rmdir (path : list ascii)
| Chmod (path : list ascii) (mode : Z)
| Truncate (path : list ascii) (size : Z)
| Utimens (path : list ascii) (ts : timespec * timespec).

Definition requested_path (rq : metadata_request) : list ascii :=
  match rq with
  | Unlink path | Mkdir path _ | Rmdir path | Chmod path _
  | Truncate path _ | Utimens path _ => path
  end.

(** The request with another path. *)
Definition with_path (rq : metadata_request) (path : list ascii)
  : metadata_request :=
  match rq with
  | Unlink _ => Unlink path
  | Mkdir _ mode => Mkdir path mode
  | Rmdir _ => Rmdir path
  | Chmod _ mode => Chmod path mode
  | Truncate _ size => Truncate path size
  | Utimens _ ts => Utimens path ts
  end.

(** The entries [.unlink], [.mkdir], [.rmdir], [.chmod], [.truncate] and
    [.utimens] of the table [basic_oper]: the operation it holds for a
    request. *)
Definition basic_oper_metadata (rq : metadata_request) : W -> Z * W :=
  match rq with
  | Unlink path => basic_unlink path
  | Mkdir path mode => basic_mkdir path mode
  | Rmdir path => basic_rmdir path
  | Chmod path mode => basic_chmod path mode
  | Truncate path size => basic_truncate path size
  | Utimens path ts => basic_utimens path ts
  end.

End MetadataOperations.

(** The system call a request stands for, on a backend path. *)
Definition backend_call {W : Type} {MC : MetadataCalls W}
  (rq : metadata_request) (fpath : list ascii) (w : W) : result unit * W :=
  match rq with
  | Unlink _ => sys_unlink w fpath
  | Mkdir _ mode => sys_mkdir w fpath mode
  | Rmdir _ => sys_rmdir w fpath
  | Chmod _ mode => sys_chmod w fpath mode
  | Truncate _ size => sys_truncate w fpath size
  | Utimens _ ts => sys_utimensat w AT_FDCWD fpath ts 0
  end.

(** ** More readings of the observed events *)

(** A path under the backend directory: it begins with [DIR_PATH]. *)
Definition confined (pathname : list ascii) : Prop :=
  firstn (List.length DIR_PATH) pathname = DIR_PATH.

(** The paths an event hands to the backend. *)
Definition paths_of (e : event) : list (list ascii) :=
  match e with
  | Opendir name _ => [name]
  | Lstat pathname _ => [pathname]
  | Open pathname _ _ _ => [pathname]
  | Rename oldpath newpath _ => [oldpath; newpath]
  | _ => []
  end.

(** The paths [lstat] was called on, in order. *)
Definition lstat_paths (evs : list event) : list (list ascii) :=
  flat_map (fun e => match e with Lstat pathname _ => [pathname] | _ => [] end)
    evs.

(** The calls of the loop of [basic_readdir]. *)
Definition listing_call (e : event) : bool :=
  match e with
  | Readdir _ | Lstat _ _ | Filler _ _ _ _ _ => true
  | _ => false
  end.

(** The calls of one write of [size] bytes at [offset], [p] of them accepted
    so far: each is a [pwrite] on [fd] of the bytes of the buffer from [p] to
    the end, [size - p] of them, at [offset + p] in the file; the next one
    starts where the accepted bytes end. *)
Fixpoint tail_writes (fd size offset p : Z) (evs : list event) : bool :=
  match evs with
  | [] => true
  | Pwrite fd' p' count off' res :: evs' =>
      (fd' =? fd) && (p' =? p) && (count =? size - p) && (off' =? offset + p) &&
      tail_writes fd size offset
        (p + match res with Ok n => n | Failed _ => 0 end) evs'
  | _ :: _ => false
  end.

(** ** A store of names

    A backend for the metadata operations: the store is the list of the
    paths that exist. *)

Fixpoint exists_in (store : list (list ascii)) (pathname : list ascii) : bool :=
  match store with
  | [] => false
  | p :: rest => same_string p pathname || exists_in rest pathname
  end.

Fixpoint remove_from (store : list (list ascii)) (pathname : list ascii)
  : list (list ascii) :=
  match store with
  | [] => []
  | p :: rest =>
      if same_string p pathname then remove_from rest pathname
      else p :: remove_from rest pathname
  end.

Definition on_existing (store : list (list ascii)) (pathname : list ascii)
  : result unit * list (list ascii) :=
  if exists_in store pathname then (Ok tt, store) else (Failed ENOENT, store).

#[export] Instance names_backend : MetadataCalls (list (list ascii)) := {
  sys_unlink store pathname :=
    if exists_in store pathname then (Ok tt, remove_from store pathname)
    else (Failed ENOENT, store);
  sys_mkdir store pathname _ :=
    if exists_in store pathname then (Failed EEXIST, store)
    else (Ok tt, pathname :: store);
  sys_rmdir store pathname :=
    if exists_in store pathname then (Ok tt, remove_from store pathname)
    else (Failed ENOENT, store);
  sys_chmod store pathname _ := on_existing store pathname;
  sys_truncate store pathname _ := on_existing store pathname;
  sys_utimensat store _ pathname _ _ := on_existing store pathname
}.

(** The backend directory itself with the one entry [a]. *)
Definition root_listing : mock :=
  mkMock [] (Ok 0)
    [(chars "/tmp/fuse_data/", [chars "a"])]
    [(chars "/tmp/fuse_data//a", regular 1)]
    (Ok tt).

(** A path of [n] bytes ['x'] after a slash. *)
Definition long_path (n : nat) (tail : string) : list ascii :=
  "/"%char :: repeat "x"%char n ++ chars tail.

(** * Properties *)

(** Unfolds the monad and the recorded system calls. *)
Ltac unfold_calls :=
  unfold bind, ret, emit, opendir, lstat, open, pread, pwrite, rename, close.


(** ** C integer conversions *)

Lemma to_int_id (z : Z) : - 2 ^ 31 <= z <= C.INT_MAX -> C.to_int z = z.
Proof.
  unfold C.to_int, C.INT_MAX. intros H.
  change (2 ^ 31) with 2147483648 in *. change (2 ^ 32) with 4294967296.
  rewrite Z.mod_small; lia.
Qed.

Lemma to_size_t_id (z : Z) : 0 <= z < 2 ^ 64 -> C.to_size_t z = z.
Proof. intros H. unfold C.to_size_t. apply Z.mod_small. exact H. Qed.

Lemma to_uint64_t_id (z : Z) : 0 <= z < 2 ^ 64 -> C.to_uint64_t z = z.
Proof. intros H. unfold C.to_uint64_t. apply Z.mod_small. exact H. Qed.

(** A descriptor survives the round trip through [fi->fh]:
    [(int) (uint64_t) fd = fd]. *)
Lemma fd_round_trip (fd : Z) :
  0 <= fd <= C.INT_MAX -> C.to_int (C.to_uint64_t fd) = fd.
Proof.
  intros H. unfold C.INT_MAX in H.
  rewrite to_uint64_t_id by (change (2 ^ 64) with 18446744073709551616; lia).
  apply to_int_id. unfold C.INT_MAX. change (2 ^ 31) with 2147483648. lia.
Qed.

(** ** C strings *)

Lemma c_str_app_NUL (l r : list ascii) : c_str (l ++ NUL :: r) = c_str l.
Proof.
  induction l as [|c l IH]; simpl.
  - reflexivity.
  - destruct (Ascii.eqb c NUL); [reflexivity | now rewrite IH].
Qed.

Lemma c_str_no_NUL (l : list ascii) : ~ In NUL (c_str l).
Proof.
  induction l as [|c l IH]; simpl; [tauto|].
  destruct (Ascii.eqb c NUL) eqn:E; simpl; [tauto|].
  intros [H | H]; [|tauto].
  subst c. rewrite Ascii.eqb_refl in E. discriminate.
Qed.

Lemma c_str_id (l : list ascii) : ~ In NUL l -> c_str l = l.
Proof.
  induction l as [|c l IH]; simpl; intros H; [reflexivity|].
  destruct (Ascii.eqb c NUL) eqn:E.
  - apply Ascii.eqb_eq in E. subst c. tauto.
  - f_equal. apply IH. tauto.
Qed.

Lemma firstn_no_NUL (n : nat) (l : list ascii) :
  ~ In NUL l -> ~ In NUL (firstn n l).
Proof.
  intros H Hin. apply H.
  rewrite <- (firstn_skipn n l). apply in_or_app. now left.
Qed.

Lemma DIR_PATH_c_str : c_str DIR_PATH = DIR_PATH.
Proof. reflexivity. Qed.

(** What [snprintf] leaves in the buffer, read back as a string: the
    formatted bytes cut to [size - 1], whatever the buffer held before. *)
Lemma snprintf_c_str (buf : list ascii) (n : nat) (formatted : list ascii) :
  ~ In NUL formatted ->
  c_str (snprintf buf (S n) formatted) = firstn n formatted.
Proof.
  intros H. unfold snprintf. rewrite c_str_app_NUL.
  apply c_str_id, firstn_no_NUL, H.
Qed.

Lemma snprintf_length (buf : list ascii) (size : nat) (formatted : list ascii) :
  List.length buf = size ->
  List.length (snprintf buf size formatted) = size.
Proof.
  intros H. destruct size as [|n]; [exact H|].
  unfold snprintf. cbv zeta.
  rewrite length_app. cbn [List.length]. rewrite length_skipn.
  assert (List.length (firstn n formatted) <= n)%nat by apply firstn_le_length.
  lia.
Qed.

Lemma snprintf_terminated (buf : list ascii) (n : nat) (formatted : list ascii) :
  nth_error (snprintf buf (S n) formatted)
    (Nat.min n (List.length formatted)) = Some NUL.
Proof.
  unfold snprintf.
  rewrite <- (length_firstn n formatted).
  rewrite nth_error_app2 by lia.
  now rewrite Nat.sub_diag.
Qed.

Lemma full_path_no_NUL (path : list ascii) :
  ~ In NUL (c_str DIR_PATH ++ c_str path).
Proof.
  intros H. apply in_app_or in H.
  destruct H as [H | H]; exact (c_str_no_NUL _ H).
Qed.

(** ** C3: path translation *)

(** C3. For every virtual path and every buffer of [out_size > 0] bytes,
    whatever it held before, [get_full_path] leaves in it the string
    [DIR_PATH ++ path] cut to [out_size - 1] bytes (so the whole of it when it
    fits with its terminator), followed by a NUL inside the buffer; the result
    depends on nothing but the path and the size. *)
Theorem get_full_path_translates (path fpath_out : list ascii) (out_size : nat) :
  (0 < out_size)%nat ->
  List.length fpath_out = out_size ->
  let out := get_full_path path fpath_out out_size in
  c_str out = firstn (out_size - 1) (DIR_PATH ++ c_str path)
  /\ ((List.length (DIR_PATH ++ c_str path) < out_size)%nat ->
      c_str out = DIR_PATH ++ c_str path)
  /\ List.length out = out_size
  /\ nth_error out (List.length (c_str out)) = Some NUL
  /\ (List.length (c_str out) < out_size)%nat
  /\ (forall other : list ascii,
        c_str (get_full_path path other out_size) = c_str out).
Proof.
  intros Hpos Hlen out.
  destruct out_size as [|n]; [lia|].
  assert (Hstr : forall b, c_str (get_full_path path b (S n))
                           = firstn n (DIR_PATH ++ c_str path)).
  { intros b. unfold get_full_path.
    rewrite snprintf_c_str by apply full_path_no_NUL.
    now rewrite DIR_PATH_c_str. }
  replace (S n - 1)%nat with n by lia.
  repeat split.
  - apply Hstr.
  - intros Hfit. subst out. rewrite Hstr. apply firstn_all2. lia.
  - apply snprintf_length, Hlen.
  - subst out. rewrite Hstr, length_firstn.
    unfold get_full_path. rewrite DIR_PATH_c_str. apply snprintf_terminated.
  - subst out. rewrite Hstr, length_firstn. lia.
  - intros other. subst out. now rewrite !Hstr.
Qed.

(** ** The operations over any backend *)

Section Properties.

Context {W : Type} {BE : Backend W} {LX : Linux BE}.
Variable indeterminate : nat -> list ascii.

Lemma since_app (s s' : state W) (evs : list event) :
  observed s' = observed s ++ evs -> since s s' = evs.
Proof.
  intros H. unfold since. rewrite H, skipn_app, skipn_all, Nat.sub_diag.
  reflexivity.
Qed.

(** ** C4: rename *)

(** C4. With a non-zero [flags], [basic_rename] returns [-EINVAL] and makes no
    call: the store and the observed events are as before. With [flags] zero
    it calls the backend's rename once, on the two translated paths, and
    returns 0 or minus its [errno]. *)
Theorem basic_rename_flags (from to : list ascii) (rflags : Z) (s : state W) :
  (rflags <> 0 ->
   basic_rename indeterminate from to rflags s = (- EINVAL, s))
  /\ (rflags = 0 ->
      let ffrom := c_str (get_full_path from (indeterminate PATH_MAX) PATH_MAX) in
      let fto := c_str (get_full_path to (indeterminate PATH_MAX) PATH_MAX) in
      let (res, w') := sys_rename (backend s) ffrom fto in
      basic_rename indeterminate from to rflags s
      = (match res with Failed errno => - errno | Ok _ => 0 end,
         mkState w' (observed s ++ [Rename ffrom fto res]))).
Proof.
  split; intros H.
  - unfold basic_rename. apply Z.eqb_neq in H. now rewrite H.
  - subst rflags. unfold basic_rename. unfold_calls. cbn [Z.eqb negb].
    cbv zeta.
    destruct (sys_rename _ _ _) as [[e | u] w']; reflexivity.
Qed.

(** ** C8: a write of no bytes *)

(** C8. A write of size 0 returns 0 and calls nothing: the state is as
    before, however long the loop is followed. *)
Theorem basic_write_empty (fuel : nat) (fi : fuse_file_info) (offset : Z)
  (s : state W) :
  basic_write fuel fi 0 offset s = (Some 0, s).
Proof. destruct fuel; reflexivity. Qed.

(** ** C7: read *)

(** C7. [basic_read] makes one call, a [pread] of [size] bytes at [offset]
    on the descriptor of the handle, and returns the count the backend read,
    between 0 and [size], or minus the backend's [errno]; the result is
    negative exactly when the backend failed. *)
Theorem basic_read_forwards (fi : fuse_file_info) (size offset : Z) (s : state W) :
  0 <= size ->
  let fd := C.to_int (fh fi) in
  let (res, w') := sys_pread (backend s) fd size offset in
  let (r, s') := basic_read fi size offset s in
  s' = mkState w' (observed s ++ [Pread fd size offset res])
  /\ match res with
     | Failed errno => r = - errno /\ r < 0
     | Ok n => r = n /\ 0 <= n <= size
     end.
Proof.
  intros Hsize fd. unfold basic_read. unfold_calls. fold fd.
  destruct (sys_pread (backend s) fd size offset) as [[e | n] w'] eqn:E.
  - split; [reflexivity|]. apply pread_errno in E. split; lia.
  - split; [reflexivity|].
    apply pread_count in E; [|exact Hsize].
    split; [|lia].
    apply to_int_id. unfold C.INT_MAX, MAX_RW_COUNT in *.
    change (2 ^ 31) with 2147483648. lia.
Qed.

(** ** C10: release twice *)

(** C10. When the descriptor stored in the handle is non-negative,
    [basic_release] closes it and leaves 0 in the handle; 0 passes the test
    [fd >= 0] again, so a second release of the same handle closes
    descriptor 0. *)
Theorem basic_release_twice (fi : fuse_file_info) (s : state W) :
  0 <= C.to_int (fh fi) ->
  let '(r1, fi1, s1) := basic_release fi s in
  let '(r2, fi2, s2) := basic_release fi1 s1 in
  r1 = 0 /\ fh fi1 = 0
  /\ observed s1 = observed s ++ [Close (C.to_int (fh fi))]
  /\ (C.to_int (fh fi1) >=? 0) = true
  /\ r2 = 0 /\ fh fi2 = 0
  /\ observed s2 = observed s1 ++ [Close 0].
Proof.
  intros H. unfold basic_release. unfold_calls.
  apply Z.geb_le in H. rewrite H. cbn.
  repeat split.
Qed.

(** ** The write loop *)

Lemma total_accepted_cons (e : event) (evs : list event) :
  total_accepted (e :: evs) = accepted e + total_accepted evs.
Proof. reflexivity. Qed.

Lemma no_hard_error_cons (e : event) (evs : list event) :
  no_hard_error (e :: evs) = negb (hard_error e) && no_hard_error evs.
Proof. reflexivity. Qed.

Lemma stalls_cons (e : event) (evs : list event) :
  stalls (e :: evs) = ((if stalled e then 1 else 0) + stalls evs)%nat.
Proof. unfold stalls. cbn [filter]. now destruct (stalled e). Qed.

(** Under the discipline, a call that is neither a stall nor a hard error
    moves at least one byte: the calls are at most the stalls plus the bytes
    moved. *)
Lemma discipline_bounds_calls (fd remaining : Z) (evs : list event) :
  retry_discipline fd remaining evs = true ->
  no_hard_error evs = true ->
  Z.of_nat (List.length evs) <= Z.of_nat (stalls evs) + total_accepted evs.
Proof.
  revert remaining.
  induction evs as [|e evs IH]; intros remaining D N; [cbn; lia|].
  destruct e; try discriminate D.
  cbn [retry_discipline] in D. rewrite no_hard_error_cons in N.
  apply andb_prop in N. destruct N as [N1 N].
  apply andb_prop in D. destruct D as [_ D].
  rewrite stalls_cons, total_accepted_cons. cbn [List.length stalled accepted].
  destruct res as [e | n].
  - cbn [hard_error] in N1. destruct (e =? EINTR) eqn:E; [|discriminate N1].
    specialize (IH _ D N). lia.
  - apply andb_prop in D. destruct D as [D1 D].
    apply andb_prop in D1. destruct D1 as [D0 _].
    apply Z.leb_le in D0.
    specialize (IH _ D N).
    destruct (n =? 0) eqn:E; [lia|].
    apply Z.eqb_neq in E. lia.
Qed.

(** The loop, one test and one iteration at a time. *)
Lemma write_loop_done (fuel : nat) (fd size to_write p off : Z) (s : state W) :
  to_write <= 0 ->
  write_loop fuel fd size to_write p off s = (Some (C.to_int size), s).
Proof.
  intros H.
  assert (G : (to_write >? 0) = false)
    by (rewrite Z.gtb_ltb; apply Z.ltb_ge; exact H).
  destruct fuel; cbn [write_loop]; rewrite G; reflexivity.
Qed.

Lemma write_loop_out_of_fuel (fd size to_write p off : Z) (s : state W) :
  0 < to_write ->
  write_loop 0 fd size to_write p off s = (None, s).
Proof.
  intros H. apply Z.gtb_lt in H. cbn [write_loop]. rewrite H. reflexivity.
Qed.

Lemma write_loop_iteration (fuel : nat) (fd size to_write p off : Z)
  (s : state W) :
  0 < to_write ->
  write_loop (S fuel) fd size to_write p off s
  = let (res, w) := sys_pwrite (backend s) fd p to_write off in
    let s1 := mkState w (observed s ++ [Pwrite fd p to_write off res]) in
    match res with
    | Failed errno =>
        if errno =? EINTR then write_loop fuel fd size to_write p off s1
        else (Some (- errno), s1)
    | Ok n =>
        write_loop fuel fd size (C.to_size_t (to_write - n)) (p + n)
          (C.to_off_t (off + n)) s1
    end.
Proof.
  intros H. apply Z.gtb_lt in H. cbn [write_loop]. rewrite H.
  unfold bind, pwrite.
  destruct (sys_pwrite (backend s) fd p to_write off) as [[e | n] w];
    [destruct (e =? EINTR)|]; reflexivity.
Qed.

(** One run of the loop, from any remaining count: its events follow the
    discipline, and its answer is the size (all remaining bytes moved, no
    hard error), minus the [errno] of the first hard error, or none yet. *)
Lemma write_loop_run (fuel : nat) :
  forall (fd size to_write p off : Z) (s : state W),
    0 <= to_write < 2 ^ 64 ->
    exists evs,
      observed (snd (write_loop fuel fd size to_write p off s))
      = observed s ++ evs
      /\ retry_discipline fd to_write evs = true
      /\ match fst (write_loop fuel fd size to_write p off s) with
         | Some v =>
             (v = C.to_int size /\ total_accepted evs = to_write
              /\ no_hard_error evs = true)
             \/ (exists front p' count off' e,
                    evs = front ++ [Pwrite fd p' count off' (Failed e)]
                    /\ e <> EINTR /\ 0 < e /\ v = - e
                    /\ no_hard_error front = true
                    /\ total_accepted front < to_write)
         | None =>
             List.length evs = fuel /\ total_accepted evs < to_write
             /\ no_hard_error evs = true
         end.
Proof.
  assert (Hdone : forall fuel fd size to_write p off (s : state W),
             0 <= to_write < 2 ^ 64 -> to_write <= 0 ->
             exists evs,
               observed (snd (write_loop fuel fd size to_write p off s))
               = observed s ++ evs
               /\ retry_discipline fd to_write evs = true
               /\ match fst (write_loop fuel fd size to_write p off s) with
                  | Some v =>
                      (v = C.to_int size /\ total_accepted evs = to_write
                       /\ no_hard_error evs = true)
                      \/ (exists front p' count off' e,
                             evs = front ++ [Pwrite fd p' count off' (Failed e)]
                             /\ e <> EINTR /\ 0 < e /\ v = - e
                             /\ no_hard_error front = true
                             /\ total_accepted front < to_write)
                  | None =>
                      List.length evs = fuel /\ total_accepted evs < to_write
                      /\ no_hard_error evs = true
                  end).
  { intros fuel' fd size to_write p off s R Z0.
    rewrite write_loop_done by exact Z0. exists []. cbn [fst snd].
    rewrite app_nil_r. split; [reflexivity|]. split; [reflexivity|].
    left. split; [reflexivity|]. split; [cbn; lia | reflexivity]. }
  induction fuel as [|fuel IH]; intros fd size to_write p off s R;
    destruct (Z_lt_le_dec 0 to_write) as [G | G]; try (apply Hdone; assumption).
  - rewrite write_loop_out_of_fuel by exact G. exists []. cbn [fst snd].
    rewrite app_nil_r. repeat split. cbn. lia.
  - assert (G' : (0 <? to_write) = true) by (apply Z.ltb_lt; exact G).
    rewrite write_loop_iteration by exact G.
    destruct (sys_pwrite (backend s) fd p to_write off) as [[e | n] w] eqn:E;
      cbv zeta.
    + pose proof (pwrite_errno _ _ _ _ _ _ _ E) as He.
      set (ev := Pwrite fd p to_write off (Failed e)).
      set (s1 := mkState w (observed s ++ [ev])).
      destruct (e =? EINTR) eqn:EI.
      * destruct (IH fd size to_write p off s1 R) as (evs & Hobs & HD & Hres).
        exists (ev :: evs).
        split; [rewrite Hobs; unfold s1; cbn [observed]; now rewrite <- app_assoc|].
        split.
        { unfold ev. cbn [retry_discipline].
          rewrite Z.eqb_refl, Z.eqb_refl, G', EI. exact HD. }
        assert (Hne : negb (hard_error ev) = true)
          by (unfold ev; cbn [hard_error]; now rewrite EI).
        destruct (fst (write_loop fuel fd size to_write p off s1)) as [v|].
        -- destruct Hres as [(Hv & Ht & Hn) | (front & p' & c' & o' & e' & Hev & H1 & H2 & H3 & H4 & H5)].
           ++ left. split; [exact Hv|].
              rewrite total_accepted_cons, no_hard_error_cons, Hne.
              split; [exact Ht | exact Hn].
           ++ right. exists (ev :: front), p', c', o', e'.
              split; [rewrite Hev; reflexivity|].
              repeat (split; [assumption|]).
              rewrite total_accepted_cons, no_hard_error_cons, Hne.
              split; [exact H4 | exact H5].
        -- destruct Hres as (Hl & Ht & Hn).
           rewrite total_accepted_cons, no_hard_error_cons, Hne.
           cbn [List.length]. rewrite Hl. repeat split; assumption.
      * exists [ev]. cbn [fst snd].
        split; [reflexivity|]. split.
        { unfold ev. cbn [retry_discipline].
          now rewrite Z.eqb_refl, Z.eqb_refl, G', EI. }
        right. exists [], p, to_write, off, e. apply Z.eqb_neq in EI.
        repeat split; assumption.
    + pose proof (pwrite_count _ _ _ _ _ _ _ (proj1 R) E) as Hn.
      rewrite (to_size_t_id (to_write - n)) by lia.
      set (ev := Pwrite fd p to_write off (Ok n)).
      set (s1 := mkState w (observed s ++ [ev])).
      set (off1 := C.to_off_t (off + n)).
      assert (R1 : 0 <= to_write - n < 2 ^ 64) by lia.
      destruct (IH fd size (to_write - n) (p + n) off1 s1 R1) as (evs & Hobs & HD & Hres).
      exists (ev :: evs).
      split; [rewrite Hobs; unfold s1; cbn [observed]; now rewrite <- app_assoc|].
      split.
      { unfold ev. cbn [retry_discipline]. rewrite Z.eqb_refl, Z.eqb_refl, G'.
        assert (Hn0 : (0 <=? n) = true) by (apply Z.leb_le; lia).
        assert (Hn1 : (n <=? to_write) = true) by (apply Z.leb_le; lia).
        rewrite Hn0, Hn1. exact HD. }
      assert (Hacc : accepted ev = n) by reflexivity.
      destruct (fst (write_loop fuel fd size (to_write - n) (p + n) off1 s1)) as [v|].
      * destruct Hres as [(Hv & Ht & Hne) | (front & p' & c' & o' & e' & Hev & H1 & H2 & H3 & H4 & H5)].
        -- left. split; [exact Hv|].
           rewrite total_accepted_cons, no_hard_error_cons, Hacc.
           split; [lia | exact Hne].
        -- right. exists (ev :: front), p', c', o', e'.
           split; [rewrite Hev; reflexivity|].
           repeat (split; [assumption|]).
           rewrite total_accepted_cons, Hacc. lia.
      * destruct Hres as (Hl & Ht & Hne).
        rewrite total_accepted_cons, no_hard_error_cons, Hacc.
        cbn [List.length]. rewrite Hl. repeat split; [lia | exact Hne].
Qed.

(** A run that has not returned has stalled often: its calls number less
    than the stalls plus the bytes asked for. *)
Lemma pending_run_stalls (fd remaining : Z) (evs : list event) :
  retry_discipline fd remaining evs = true ->
  no_hard_error evs = true ->
  total_accepted evs < remaining ->
  Z.of_nat (List.length evs) < Z.of_nat (stalls evs) + remaining.
Proof.
  intros D N T. pose proof (discipline_bounds_calls _ _ _ D N). lia.
Qed.

(** ** C1: write returns the whole size or an error *)

(** C1. For a size of at most [INT_MAX]: a run of [basic_write] that has
    returned has returned the size itself, after calls that moved exactly
    that many bytes with no hard error, or minus the [errno] of its last
    call, the first that failed with another error than [EINTR]; never a
    count between 0 and the size. A run that has not returned has made all
    the calls it was followed for, without a hard error and with fewer bytes
    moved than asked. It has returned as soon as the calls it is followed for
    number the stalls plus the size. *)
Theorem basic_write_all_or_error (fuel : nat) (fi : fuse_file_info)
  (size offset : Z) (s : state W) :
  0 <= size <= C.INT_MAX ->
  let (r, s') := basic_write fuel fi size offset s in
  let evs := since s s' in
  let fd := C.to_int (fh fi) in
  observed s' = observed s ++ evs
  /\ match r with
     | Some v =>
         (v = size /\ total_accepted evs = size /\ no_hard_error evs = true)
         \/ (exists front p count off e,
                evs = front ++ [Pwrite fd p count off (Failed e)]
                /\ e <> EINTR /\ v = - e /\ v < 0
                /\ no_hard_error front = true
                /\ total_accepted front < size)
     | None =>
         List.length evs = fuel /\ total_accepted evs < size
         /\ no_hard_error evs = true
     end
  /\ (forall v, r = Some v -> v = size \/ v < 0)
  /\ (Z.of_nat (stalls evs) + size <= Z.of_nat fuel -> exists v, r = Some v).
Proof.
  intros Hsize. unfold basic_write.
  assert (R : 0 <= size < 2 ^ 64)
    by (unfold C.INT_MAX in Hsize; change (2 ^ 64) with 18446744073709551616; lia).
  assert (Hint : C.to_int size = size).
  { apply to_int_id. unfold C.INT_MAX in *. change (2 ^ 31) with 2147483648. lia. }
  destruct (write_loop_run fuel (C.to_int (fh fi)) size size 0 offset s R)
    as (evs & Hobs & HD & Hres).
  destruct (write_loop fuel (C.to_int (fh fi)) size size 0 offset s) as [r s'].
  cbn [fst snd] in Hobs, Hres. cbv zeta.
  rewrite (since_app _ _ _ Hobs).
  split; [exact Hobs|].
  destruct r as [v|].
  - rewrite Hint in Hres.
    assert (Hv : v = size \/ v < 0).
    { destruct Hres as [(Hv & _) | (front & p' & c' & o' & e & _ & _ & He & Hv & _)];
        [left; exact Hv | right; lia]. }
    split; [|split].
    + destruct Hres as [H | (front & p' & c' & o' & e & Hev & H1 & H2 & H3 & H4 & H5)];
        [left; exact H|].
      right. exists front, p', c', o', e. repeat split; try assumption. lia.
    + intros v' Hv'. injection Hv' as <-. exact Hv.
    + intros _. now exists v.
  - split; [exact Hres|]. split; [discriminate|].
    destruct Hres as (Hl & Ht & Hn). intros Hfuel.
    pose proof (pending_run_stalls _ _ _ HD Hn Ht). lia.
Qed.

(** ** C2: the write loop makes progress, stalls or fails *)

(** C2. For every size: the calls of a run of [basic_write] follow the retry
    discipline (each is a [pwrite] of exactly the remaining bytes; [n]
    accepted bytes leave [n] fewer, none when [n] is 0; [EINTR] leaves as
    many; another error ends the run). A run that has not returned has seen
    no hard error, fewer bytes accepted than asked, and stalls (interrupts and
    zero-byte answers) that outnumber the calls it was followed for less the
    size; so a run followed for as many calls as its stalls plus the size has
    returned. *)
Theorem write_loop_returns_unless_stalled (fuel : nat) (fi : fuse_file_info)
  (size offset : Z) (s : state W) :
  0 <= size < 2 ^ 64 ->
  let (r, s') := basic_write fuel fi size offset s in
  let evs := since s s' in
  retry_discipline (C.to_int (fh fi)) size evs = true
  /\ (r = None ->
      List.length evs = fuel /\ total_accepted evs < size
      /\ no_hard_error evs = true
      /\ Z.of_nat fuel < Z.of_nat (stalls evs) + size)
  /\ (Z.of_nat (stalls evs) + size <= Z.of_nat fuel -> exists v, r = Some v).
Proof.
  intros R. unfold basic_write.
  destruct (write_loop_run fuel (C.to_int (fh fi)) size size 0 offset s R)
    as (evs & Hobs & HD & Hres).
  destruct (write_loop fuel (C.to_int (fh fi)) size size 0 offset s) as [r s'].
  cbn [fst snd] in Hobs, Hres. cbv zeta.
  rewrite (since_app _ _ _ Hobs).
  split; [exact HD|].
  destruct r as [v|].
  - split; [discriminate | intros _; now exists v].
  - destruct Hres as (Hl & Ht & Hn).
    pose proof (pending_run_stalls _ _ _ HD Hn Ht) as Hs.
    split; [intros _; repeat split; try assumption; lia | intros Hfuel; lia].
Qed.

(** ** Directory listing *)

Section ReaddirProperties.

Context {B : Type}.
Variable filler : B -> list ascii -> stat -> Z -> Z -> Z * B.

Lemma readdir_loop_end (fpath : list ascii) (buf : B) (s : state W) :
  readdir_loop indeterminate filler fpath [] buf s
  = (buf, mkState (backend s) (observed s ++ [Readdir None])).
Proof. reflexivity. Qed.

(** One iteration of the loop on the entry [d_name]. *)
Lemma readdir_loop_entry (fpath d_name : list ascii) (dp : list (list ascii))
  (buf : B) (s : state W) :
  readdir_loop indeterminate filler fpath (d_name :: dp) buf s
  = let child := child_path indeterminate fpath d_name in
    let r := sys_lstat (backend s) child in
    let s2 := mkState (backend s)
                (observed s ++ [Readdir (Some d_name); Lstat child r]) in
    match r with
    | Failed _ => readdir_loop indeterminate filler fpath dp buf s2
    | Ok st =>
        let (res, buf') := filler buf d_name st 0 0 in
        let s3 := mkState (backend s)
                    (observed s2 ++ [Filler d_name st 0 0 res]) in
        if res =? 0 then readdir_loop indeterminate filler fpath dp buf' s3
        else (buf', s3)
    end.
Proof.
  cbn [readdir_loop]. unfold bind, emit, lstat, fill, ret, child_path.
  cbn [backend observed]. rewrite <- app_assoc. cbn [app].
  destruct (sys_lstat _ _) as [e | st]; [reflexivity|].
  destruct (filler buf d_name st 0 0) as [res buf']. cbn [fst snd].
  destruct (res =? 0); reflexivity.
Qed.

Lemma offered_app (a b : list event) : offered (a ++ b) = offered a ++ offered b.
Proof. apply flat_map_app. Qed.

(** The loop hands the consumer the resolvable entries of the stream, in
    order, until the callback answers non-zero; it leaves the store alone. *)
Lemma readdir_loop_run (fpath : list ascii) (dp : list (list ascii)) :
  forall (buf : B) (s : state W),
    let run := readdir_loop indeterminate filler fpath dp buf s in
    exists evs,
      observed (snd run) = observed s ++ evs
      /\ backend (snd run) = backend s
      /\ (offered evs, fst run)
         = feed filler buf (resolvable (backend s) indeterminate fpath dp)
      /\ ((forall name st off fl res,
              In (Filler name st off fl res) evs -> res = 0) ->
          offered evs = resolvable (backend s) indeterminate fpath dp).
Proof.
  induction dp as [|d_name dp IH]; intros buf s run; subst run.
  - rewrite readdir_loop_end. exists [Readdir None]. cbn. repeat split.
  - rewrite readdir_loop_entry. cbv zeta.
    unfold resolvable. cbn [flat_map]. fold (resolvable (backend s) indeterminate fpath dp).
    set (child := child_path indeterminate fpath d_name).
    destruct (sys_lstat (backend s) child) as [e | st] eqn:E.
    + set (s2 := mkState (backend s)
                   (observed s ++ [Readdir (Some d_name); Lstat child (Failed e)])).
      destruct (IH buf s2) as (evs & Hobs & Hbk & Hfeed & Hall).
      exists (Readdir (Some d_name) :: Lstat child (Failed e) :: evs).
      split; [rewrite Hobs; unfold s2; cbn [observed]; now rewrite <- app_assoc|].
      split; [exact Hbk|].
      split; [exact Hfeed|].
      intros Hz. apply Hall. intros name st off fl res Hin.
      apply (Hz name st off fl res). right. right. exact Hin.
    + cbn [app feed].
      destruct (filler buf d_name st 0 0) as [res buf'] eqn:F.
      set (s3 := mkState (backend s)
                   (observed
                      (mkState (backend s)
                         (observed s ++ [Readdir (Some d_name); Lstat child (Ok st)]))
                    ++ [Filler d_name st 0 0 res])).
      destruct (res =? 0) eqn:R0.
      * destruct (IH buf' s3) as (evs & Hobs & Hbk & Hfeed & Hall).
        exists (Readdir (Some d_name) :: Lstat child (Ok st)
                  :: Filler d_name st 0 0 res :: evs).
        split; [rewrite Hobs; unfold s3; cbn [observed];
                now rewrite <- !app_assoc|].
        split; [exact Hbk|].
        change (backend s3) with (backend s) in Hfeed, Hall.
        split.
        { cbn [offered flat_map app]. fold (offered evs).
          destruct (feed filler buf' (resolvable (backend s) indeterminate fpath dp))
            as [given buf''].
          injection Hfeed as -> ->. reflexivity. }
        intros Hz. cbn [offered flat_map app]. fold (offered evs).
        f_equal. apply Hall. intros name st' off fl res' Hin.
        apply (Hz name st' off fl res'). right. right. right. exact Hin.
      * exists [Readdir (Some d_name); Lstat child (Ok st); Filler d_name st 0 0 res].
        cbn [fst snd]. split; [unfold s3; cbn [observed]; now rewrite <- app_assoc|].
        split; [reflexivity|]. split; [reflexivity|].
        intros Hz.
        assert (res = 0) by (apply (Hz d_name st 0 0 res); cbn; tauto).
        subst res. discriminate R0.
Qed.

(** What the consumer gets is a prefix of what was there to give. *)
Lemma feed_prefix (entries : list (list ascii * stat)) :
  forall buf : B, exists rest, entries = fst (feed filler buf entries) ++ rest.
Proof.
  induction entries as [|[name st] entries IH]; intros buf.
  - now exists [].
  - cbn [feed]. destruct (filler buf name st 0 0) as [res buf'].
    destruct (res =? 0).
    + destruct (IH buf') as (rest & Hrest).
      destruct (feed filler buf' entries) as [given buf'']. cbn [fst] in *.
      exists rest. cbn [app]. now rewrite <- Hrest.
    + now exists entries.
Qed.

Lemma resolvable_In (w : W) (fpath d_name : list ascii) (st : stat)
  (dp : list (list ascii)) :
  In (d_name, st) (resolvable w indeterminate fpath dp) ->
  In d_name dp
  /\ sys_lstat w (child_path indeterminate fpath d_name) = Ok st.
Proof.
  unfold resolvable. rewrite in_flat_map. intros (d & Hd & Hin).
  destruct (sys_lstat w (child_path indeterminate fpath d)) as [e | st'] eqn:E;
    [contradiction|].
  destruct Hin as [Heq | []]. injection Heq as -> ->. now split.
Qed.

Lemma resolvable_none (w : W) (fpath : list ascii) (dp : list (list ascii)) :
  (forall d_name, In d_name dp ->
     exists e, sys_lstat w (child_path indeterminate fpath d_name) = Failed e) ->
  resolvable w indeterminate fpath dp = [].
Proof.
  intros H. induction dp as [|d dp IH]; [reflexivity|].
  unfold resolvable. cbn [flat_map]. fold (resolvable w indeterminate fpath dp).
  destruct (H d (or_introl eq_refl)) as (e & ->).
  apply IH. intros d' Hd'. apply H. now right.
Qed.

(** [basic_readdir] once the directory is open. *)
Lemma basic_readdir_open (path : list ascii) (buf : B) (s : state W)
  (dp : list (list ascii)) :
  let fpath := get_full_path path (indeterminate PATH_MAX) PATH_MAX in
  sys_opendir (backend s) (c_str fpath) = Ok dp ->
  let s1 := mkState (backend s)
              (observed s ++ [Opendir (c_str fpath) (Ok dp)]) in
  let run := readdir_loop indeterminate filler fpath dp buf s1 in
  basic_readdir indeterminate filler path buf s
  = ((0, fst run),
     mkState (backend (snd run)) (observed (snd run) ++ [Closedir])).
Proof.
  intros fpath Hopen s1 run. unfold basic_readdir, bind, opendir, emit, ret.
  fold fpath. rewrite Hopen. fold s1. fold run.
  destruct run as [buf' s2]. reflexivity.
Qed.

Lemma basic_readdir_run (path : list ascii) (buf : B) (s : state W)
  (dp : list (list ascii)) :
  let fpath := get_full_path path (indeterminate PATH_MAX) PATH_MAX in
  let expected := resolvable (backend s) indeterminate fpath dp in
  sys_opendir (backend s) (c_str fpath) = Ok dp ->
  exists inner buf' s',
    basic_readdir indeterminate filler path buf s = ((0, buf'), s')
    /\ since s s' = Opendir (c_str fpath) (Ok dp) :: inner ++ [Closedir]
    /\ offered (since s s') = offered inner
    /\ (offered inner, buf') = feed filler buf expected
    /\ ((forall name st off fl res,
            In (Filler name st off fl res) inner -> res = 0) ->
        offered inner = expected).
Proof.
  intros fpath expected Hopen.
  rewrite (basic_readdir_open path buf s dp Hopen). fold fpath.
  set (s1 := mkState (backend s) (observed s ++ [Opendir (c_str fpath) (Ok dp)])).
  destruct (readdir_loop_run fpath dp buf s1) as (inner & Hobs & Hbk & Hfeed & Hall).
  cbv zeta in Hobs, Hbk, Hfeed, Hall.
  change (backend s1) with (backend s) in Hfeed, Hall.
  destruct (readdir_loop indeterminate filler fpath dp buf s1) as [buf' s2].
  cbn [fst snd] in *.
  exists inner, buf', (mkState (backend s2) (observed s2 ++ [Closedir])).
  assert (Hsince : since s (mkState (backend s2) (observed s2 ++ [Closedir]))
                   = Opendir (c_str fpath) (Ok dp) :: inner ++ [Closedir]).
  { apply since_app. cbn [observed]. rewrite Hobs. unfold s1. cbn [observed].
    now rewrite <- !app_assoc. }
  split; [reflexivity|]. split; [exact Hsince|]. split.
  { rewrite Hsince. cbn [offered flat_map app]. fold (offered (inner ++ [Closedir])).
    rewrite offered_app. cbn. now rewrite app_nil_r. }
  split; [exact Hfeed | exact Hall].
Qed.

(** ** C6: entries whose metadata does not resolve are skipped *)

(** C6. Once the directory is open, [basic_readdir] returns 0 and hands the
    consumer's callback the raw entries whose [lstat] succeeds, in the
    backend's order, up to and including the first one the callback answers
    non-zero to: all of them when the callback always answers 0. An entry
    whose [lstat] fails is never handed over, and hides none of the others. *)
Theorem basic_readdir_skips_unresolved (path : list ascii) (buf : B)
  (s : state W) (dp : list (list ascii)) :
  let fpath := get_full_path path (indeterminate PATH_MAX) PATH_MAX in
  let expected := resolvable (backend s) indeterminate fpath dp in
  sys_opendir (backend s) (c_str fpath) = Ok dp ->
  let '(rc, buf', s') := basic_readdir indeterminate filler path buf s in
  let evs := since s s' in
  rc = 0
  /\ (offered evs, buf') = feed filler buf expected
  /\ (exists rest, expected = offered evs ++ rest)
  /\ ((forall name st off fl res,
          In (Filler name st off fl res) evs -> res = 0) ->
      offered evs = expected)
  /\ (forall d_name e,
        sys_lstat (backend s) (child_path indeterminate fpath d_name) = Failed e ->
        ~ In d_name (map fst (offered evs))).
Proof.
  intros fpath expected Hopen.
  destruct (basic_readdir_run path buf s dp Hopen)
    as (inner & buf' & s' & -> & Hsince & Hoff & Hfeed & Hall).
  fold fpath in Hsince, Hfeed, Hall. fold expected in Hfeed, Hall.
  cbv zeta. rewrite Hoff.
  assert (Hpre : exists rest, expected = offered inner ++ rest).
  { destruct (feed_prefix expected buf) as (rest & Hrest).
    rewrite <- Hfeed in Hrest. now exists rest. }
  split; [reflexivity|]. split; [exact Hfeed|]. split; [exact Hpre|]. split.
  - intros Hz. apply Hall. intros name st off fl res Hin.
    apply (Hz name st off fl res). rewrite Hsince. right.
    apply in_or_app. now left.
  - intros d_name e Hfail Hin. apply in_map_iff in Hin.
    destruct Hin as ([d st] & Hd & Hin). cbn [fst] in Hd. subst d.
    destruct Hpre as (rest & Hrest).
    assert (Hexp : In (d_name, st) expected)
      by (rewrite Hrest; apply in_or_app; now left).
    apply resolvable_In in Hexp. destruct Hexp as [_ Hok].
    fold fpath in Hok. rewrite Hfail in Hok. discriminate Hok.
Qed.

(** ** C9: readdir succeeds once the directory is open *)

(** C9. Once the directory is open, [basic_readdir] returns 0 whatever the
    entries; when no entry resolves (the stream is empty, or [lstat] fails
    on every name) the callback is never called and the consumer's buffer is
    as before. *)
Theorem basic_readdir_succeeds (path : list ascii) (buf : B) (s : state W)
  (dp : list (list ascii)) :
  let fpath := get_full_path path (indeterminate PATH_MAX) PATH_MAX in
  sys_opendir (backend s) (c_str fpath) = Ok dp ->
  let '(rc, buf', s') := basic_readdir indeterminate filler path buf s in
  rc = 0
  /\ ((forall d_name, In d_name dp ->
         exists e,
           sys_lstat (backend s) (child_path indeterminate fpath d_name)
           = Failed e) ->
      offered (since s s') = [] /\ buf' = buf).
Proof.
  intros fpath Hopen.
  destruct (basic_readdir_run path buf s dp Hopen)
    as (inner & buf' & s' & -> & Hsince & Hoff & Hfeed & Hall).
  fold fpath in Hfeed. split; [reflexivity|].
  intros Hnone. rewrite Hoff.
  rewrite (resolvable_none _ _ _ Hnone) in Hfeed. cbn [feed] in Hfeed.
  injection Hfeed as -> ->. now split.
Qed.

End ReaddirProperties.

(** ** Sessions *)

(** The calls of the write loop are writes on its descriptor, whatever the
    backend answers. *)
Lemma write_loop_only_io (fuel : nat) :
  forall (fd size to_write p off : Z) (s : state W),
    exists evs,
      observed (snd (write_loop fuel fd size to_write p off s))
      = observed s ++ evs
      /\ forallb (is_io fd) evs = true.
Proof.
  induction fuel as [|fuel IH]; intros fd size to_write p off s;
    destruct (Z_lt_le_dec 0 to_write) as [G | G];
    try (rewrite write_loop_done by exact G; exists [];
         now rewrite app_nil_r).
  - rewrite write_loop_out_of_fuel by exact G. exists []. now rewrite app_nil_r.
  - rewrite write_loop_iteration by exact G.
    destruct (sys_pwrite (backend s) fd p to_write off) as [res w]. cbv zeta.
    set (ev := Pwrite fd p to_write off res).
    set (s1 := mkState w (observed s ++ [ev])).
    assert (Hstep : forall run : option Z * state W,
               (exists evs, observed (snd run) = observed s1 ++ evs
                            /\ forallb (is_io fd) evs = true) ->
               exists evs, observed (snd run) = observed s ++ evs
                           /\ forallb (is_io fd) evs = true).
    { intros run (evs & Hobs & Hio). exists (ev :: evs). split.
      - rewrite Hobs. unfold s1. cbn [observed]. now rewrite <- app_assoc.
      - unfold ev. cbn [forallb is_io]. now rewrite Z.eqb_refl, Hio. }
    destruct res as [e | n].
    + destruct (e =? EINTR); [apply Hstep, IH|].
      apply Hstep. exists []. now rewrite app_nil_r.
    + apply Hstep, IH.
Qed.

Lemma serve_only_io (fi : fuse_file_info) (rq : request) (s : state W) :
  exists evs,
    observed (snd (serve fi rq s)) = observed s ++ evs
    /\ forallb (is_io (C.to_int (fh fi))) evs = true.
Proof.
  destruct rq as [size offset | fuel size offset]; unfold serve, bind, ret.
  - unfold basic_read. unfold_calls.
    destruct (sys_pread _ _ _ _) as [[e | n] w];
      eexists; (split; [reflexivity|]); cbn; now rewrite Z.eqb_refl.
  - unfold basic_write.
    destruct (write_loop_only_io fuel (C.to_int (fh fi)) size size 0 offset s)
      as (evs & Hobs & Hio).
    destruct (write_loop fuel (C.to_int (fh fi)) size size 0 offset s) as [r s'].
    exists evs. now split.
Qed.

Lemma serve_all_only_io (fi : fuse_file_info) (rqs : list request) :
  forall s : state W,
    exists evs,
      observed (snd (serve_all fi rqs s)) = observed s ++ evs
      /\ forallb (is_io (C.to_int (fh fi))) evs = true.
Proof.
  induction rqs as [|rq rqs IH]; intros s.
  - exists []. cbn. now rewrite app_nil_r.
  - cbn [serve_all]. unfold bind at 1.
    destruct (serve_only_io fi rq s) as (ev1 & Hobs1 & Hio1).
    destruct (serve fi rq s) as [u s1]. cbn [snd] in Hobs1.
    destruct (IH s1) as (ev2 & Hobs2 & Hio2).
    exists (ev1 ++ ev2). split.
    + now rewrite Hobs2, Hobs1, app_assoc.
    + now rewrite forallb_app, Hio1, Hio2.
Qed.

Lemma closes_app (a b : list event) : closes (a ++ b) = closes a ++ closes b.
Proof. apply flat_map_app. Qed.

Lemma io_closes_nothing (fd : Z) (evs : list event) :
  forallb (is_io fd) evs = true -> closes evs = [].
Proof.
  induction evs as [|e evs IH]; [reflexivity|]. cbn [forallb].
  intros H. apply andb_prop in H. destruct H as [He H].
  destruct e; try discriminate He; cbn; now apply IH.
Qed.

Lemma io_keeps_session_open (fd : Z) (evs : list event) :
  forallb (is_io fd) evs = true ->
  fold_left session_step evs (Opened fd) = Opened fd.
Proof.
  induction evs as [|e evs IH]; [reflexivity|]. cbn [forallb].
  intros H. apply andb_prop in H. destruct H as [He H].
  destruct e; try discriminate He; cbn; now apply IH.
Qed.

(** [basic_open] and [basic_create] are one [open] each. *)
Lemma opener_run (how : opener) (path : list ascii) (fi : fuse_file_info)
  (s : state W) :
  exists pathname oflags mode,
    match how with
    | ByOpen => basic_open indeterminate path fi
    | ByCreate m => basic_create indeterminate path m fi
    end s
    = let (res, w') := sys_open (backend s) pathname oflags mode in
      (match res with
       | Failed errno => (- errno, fi)
       | Ok fd => (0, mkFi (flags fi) (C.to_uint64_t fd))
       end,
       mkState w' (observed s ++ [Open pathname oflags mode res])).
Proof.
  set (fpath := c_str (get_full_path path (indeterminate PATH_MAX) PATH_MAX)).
  destruct how as [|m].
  - exists fpath, (flags fi), None. unfold basic_open. unfold_calls.
    fold fpath.
    destruct (sys_open _ _ _ _) as [[e | fd] w']; reflexivity.
  - exists fpath,
      (if Z.land (flags fi) O_APPEND =? 0 then Z.lor O_CREAT O_WRONLY
       else Z.lor (Z.lor O_CREAT O_WRONLY) O_APPEND),
      (Some m).
    unfold basic_create. unfold_calls. fold fpath. cbv zeta.
    destruct (sys_open _ _ _ _) as [[e | fd] w']; reflexivity.
Qed.

(** ** C5: one close per session *)

(** C5. A session whose open or create succeeded, served any reads and
    writes and released once, shows the backend the [open], then reads and
    writes on the descriptor it returned, then one [close] of that
    descriptor, the last event: nothing of the session uses the descriptor
    afterwards. The session is then Closed and the handle holds 0. *)
Theorem session_closes_once (how : opener) (path : list ascii)
  (fi : fuse_file_info) (rqs : list request) (s : state W) :
  let '(rc, fi', s') := session indeterminate how path fi rqs s in
  let evs := since s s' in
  rc = 0 ->
  exists fd pathname oflags mode io,
    evs = Open pathname oflags mode (Ok fd) :: io ++ [Close fd]
    /\ 0 <= fd <= C.INT_MAX
    /\ forallb (is_io fd) io = true
    /\ closes evs = [fd]
    /\ session_state_after evs = Closed fd
    /\ fh fi' = 0.
Proof.
  unfold session. unfold bind at 1.
  destruct (opener_run how path fi s) as (pathname & oflags & mode & ->).
  destruct (sys_open (backend s) pathname oflags mode) as [[e | fd] w'] eqn:E.
  - apply open_errno in E. cbn [fst snd].
    destruct (- e =? 0) eqn:Z0; [apply Z.eqb_eq in Z0; lia|].
    unfold ret. cbv zeta. intros H. lia.
  - pose proof (open_fd _ _ _ _ _ _ E) as Hfd.
    cbn [fst snd Z.eqb]. unfold bind at 1.
    set (fi1 := mkFi (flags fi) (C.to_uint64_t fd)).
    set (s1 := mkState w' (observed s ++ [Open pathname oflags mode (Ok fd)])).
    destruct (serve_all_only_io fi1 rqs s1) as (io & Hobs & Hio).
    destruct (serve_all fi1 rqs s1) as [u s2]. cbn [snd] in Hobs.
    assert (Hfh : C.to_int (fh fi1) = fd) by apply (fd_round_trip fd Hfd).
    rewrite Hfh in Hio.
    unfold basic_release, bind, close, ret. rewrite !Hfh.
    assert (G : (fd >=? 0) = true) by (apply Z.geb_le; lia).
    rewrite G. cbv zeta. intros _.
    exists fd, pathname, oflags, mode, io.
    assert (Hev : since s (mkState (sys_close (backend s2) fd)
                              (observed s2 ++ [Close fd]))
                  = Open pathname oflags mode (Ok fd) :: io ++ [Close fd]).
    { apply since_app. cbn [observed]. rewrite Hobs. unfold s1. cbn [observed].
      now rewrite <- !app_assoc. }
    rewrite Hev. split; [reflexivity|]. split; [exact Hfd|].
    split; [exact Hio|]. split; [|split; [|reflexivity]].
    + cbn [closes flat_map app]. fold (closes (io ++ [Close fd])).
      rewrite closes_app, (io_closes_nothing fd io Hio). reflexivity.
    + unfold session_state_after. cbn [fold_left session_step].
      rewrite fold_left_app, (io_keeps_session_open fd io Hio).
      cbn [fold_left session_step]. now rewrite Z.eqb_refl.
Qed.

End Properties.

(** * The scripted backend: instances and counterexamples *)

Lemma within_range (lo hi : Z) (r : result Z) (n : Z) :
  lo <= hi -> within lo hi r = Ok n -> lo <= n <= hi.
Proof.
  intros H. destruct r as [e | m]; cbn [within]; [discriminate|].
  intros E. injection E as <-. lia.
Qed.

Lemma within_errno (lo hi : Z) (r : result Z) (e : Z) :
  within lo hi r = Failed e -> 0 < e.
Proof.
  destruct r as [e' | m]; cbn [within]; [|discriminate].
  intros E. injection E as <-. lia.
Qed.

(** The scripted backend keeps the promises of the manual pages. *)
Lemma mock_linux : Linux mock_backend.
Proof.
  constructor; cbn [sys_pwrite sys_pread sys_open mock_backend].
  - intros w fd p count off n w' Hc E.
    destruct (next_answer w) as [r m']. injection E as E _.
    eapply within_range; [|eassumption]. unfold MAX_RW_COUNT. lia.
  - intros w fd p count off e w' E.
    destruct (next_answer w) as [r m']. injection E as E _.
    eapply within_errno; eassumption.
  - intros w fd count off n w' Hc E.
    destruct (next_answer w) as [r m']. injection E as E _.
    eapply within_range; [|eassumption]. unfold MAX_RW_COUNT. lia.
  - intros w fd count off e w' E.
    destruct (next_answer w) as [r m']. injection E as E _.
    eapply within_errno; eassumption.
  - intros w pathname oflags mode fd w' E.
    destruct (next_answer w) as [r m']. injection E as E _.
    eapply within_range; [|eassumption]. unfold C.INT_MAX. lia.
  - intros w pathname oflags mode e w' E.
    destruct (next_answer w) as [r m']. injection E as E _.
    eapply within_errno; eassumption.
Qed.

(** ** C3 at a buffer of 20 bytes: the path is cut to 19 bytes and a NUL *)

Lemma get_full_path_translates_witness :
  (0 < 20)%nat
  /\ List.length (question_marks 20) = 20%nat
  /\ c_str (get_full_path (chars "/hello.txt") (question_marks 20) 20)
     = chars "/tmp/fuse_data/hell".
Proof.
  split; [lia|]. split; [reflexivity|].
  exact (proj1 (get_full_path_translates (chars "/hello.txt")
                  (question_marks 20) 20 ltac:(lia) eq_refl)).
Defined.

(** ** C4 at flags 1 *)

Lemma basic_rename_flags_witness :
  1 <> 0
  /\ basic_rename question_marks (chars "/a") (chars "/b") 1 (initially greedy)
     = (- EINVAL, initially greedy).
Proof.
  split; [discriminate|].
  apply (proj1 (basic_rename_flags question_marks (chars "/a") (chars "/b") 1
                  (initially greedy))).
  discriminate.
Defined.

(** ** C1: a size of 2^31 bytes, all accepted in two calls, is reported as -2^31 *)

Lemma basic_write_truncates_size :
  basic_write 2 handle3 2147483648 0 (initially greedy)
  = (Some (-2147483648),
     mkState greedy [Pwrite 3 0 2147483648 0 (Ok 2147479552);
                     Pwrite 3 2147479552 4096 2147479552 (Ok 4096)]).
Proof. vm_compute. reflexivity. Qed.

(** ** C1 at 10 bytes written in four calls, and at a hard error *)

Lemma basic_write_all_or_error_witness :
  Linux mock_backend
  /\ 0 <= 10 <= C.INT_MAX
  /\ (forall v,
        fst (basic_write 5 handle3 10 0 (initially stuttering)) = Some v ->
        v = 10 \/ v < 0)
  /\ (forall v,
        fst (basic_write 5 handle3 10 0 (initially failing)) = Some v ->
        v = 10 \/ v < 0).
Proof.
  assert (H : 0 <= 10 <= C.INT_MAX) by (unfold C.INT_MAX; lia).
  split; [exact mock_linux|]. split; [exact H|]. split.
  - pose proof (basic_write_all_or_error (LX := mock_linux) 5 handle3 10 0
                  (initially stuttering) H) as T.
    destruct (basic_write 5 handle3 10 0 (initially stuttering)) as [r s'].
    exact (proj1 (proj2 (proj2 T))).
  - pose proof (basic_write_all_or_error (LX := mock_linux) 5 handle3 10 0
                  (initially failing) H) as T.
    destruct (basic_write 5 handle3 10 0 (initially failing)) as [r s'].
    exact (proj1 (proj2 (proj2 T))).
Defined.

(** ** C2: a backend that accepts nothing keeps the loop running *)

Lemma stuck_write_loop (fuel : nat) :
  forall evs : list event,
    fst (write_loop fuel 3 1 1 0 0 (mkState stuck evs)) = None.
Proof.
  induction fuel as [|fuel IH]; intros evs; [reflexivity|].
  rewrite write_loop_iteration by lia.
  cbn [sys_pwrite mock_backend backend next_answer script stuck idle within].
  cbv zeta. apply IH.
Qed.

Lemma interrupted_write_loop (fuel : nat) :
  forall evs : list event,
    fst (write_loop fuel 3 1 1 0 0 (mkState interrupted evs)) = None.
Proof.
  induction fuel as [|fuel IH]; intros evs; [reflexivity|].
  rewrite write_loop_iteration by lia.
  cbn [sys_pwrite mock_backend backend next_answer script interrupted idle within].
  cbv zeta. apply IH.
Qed.

(** The first call asks for 1 byte and gets 0 accepted, with no error; the
    second call asks for the same byte again; and so on: however many calls
    the run is followed for, it has not returned. The same holds of a backend
    that answers [EINTR] to every call. *)
Lemma write_loop_spins_on_zero :
  (forall fuel : nat, fst (basic_write fuel handle3 1 0 (initially stuck)) = None)
  /\ snd (basic_write 2 handle3 1 0 (initially stuck))
     = mkState stuck [Pwrite 3 0 1 0 (Ok 0); Pwrite 3 0 1 0 (Ok 0)]
  /\ (forall fuel : nat,
        fst (basic_write fuel handle3 1 0 (initially interrupted)) = None).
Proof.
  split; [intros fuel; apply stuck_write_loop|].
  split; [vm_compute; reflexivity|].
  intros fuel. apply interrupted_write_loop.
Qed.

(** ** C2 at 10 bytes with two stalls: returned within 12 calls *)

Lemma write_loop_returns_unless_stalled_witness :
  Linux mock_backend
  /\ 0 <= 10 < 2 ^ 64
  /\ (Z.of_nat (stalls (since (initially stuttering)
                          (snd (basic_write 12 handle3 10 0 (initially stuttering)))))
      + 10 <= Z.of_nat 12)
  /\ exists v, fst (basic_write 12 handle3 10 0 (initially stuttering)) = Some v.
Proof.
  assert (H : 0 <= 10 < 2 ^ 64) by (vm_compute; split; [discriminate | reflexivity]).
  split; [exact mock_linux|]. split; [exact H|].
  pose proof (write_loop_returns_unless_stalled (LX := mock_linux) 12 handle3 10 0
                (initially stuttering) H) as T.
  destruct (basic_write 12 handle3 10 0 (initially stuttering)) as [r s'] eqn:E.
  cbn [fst snd]. cbv zeta in T.
  assert (S : Z.of_nat (stalls (since (initially stuttering) s')) + 10
              <= Z.of_nat 12).
  { vm_compute in E. injection E as _ <-. vm_compute. discriminate. }
  split; [exact S|]. exact (proj2 (proj2 T) S).
Defined.

(** ** C7 at a read of 8 bytes of which the backend has 7 *)

Lemma basic_read_forwards_witness :
  Linux mock_backend
  /\ 0 <= 8
  /\ fst (basic_read handle3 8 0 (initially one_file)) = 7.
Proof.
  assert (H : 0 <= 8) by lia.
  split; [exact mock_linux|]. split; [exact H|].
  pose proof (basic_read_forwards (LX := mock_linux) handle3 8 0
                (initially one_file) H) as T.
  cbv zeta in T.
  destruct (sys_pread (backend (initially one_file)) (C.to_int (fh handle3)) 8 0)
    as [res w'] eqn:E.
  destruct (basic_read handle3 8 0 (initially one_file)) as [r s'].
  vm_compute in E. injection E as <- <-.
  exact (proj1 (proj2 T)).
Defined.

(** ** C10 at a handle on descriptor 3 *)

Lemma basic_release_twice_witness :
  0 <= C.to_int (fh handle3)
  /\ let '(r1, fi1, s1) := basic_release handle3 (initially greedy) in
     let '(r2, fi2, s2) := basic_release fi1 s1 in
     fh fi1 = 0 /\ observed s2 = [Close 3; Close 0].
Proof.
  assert (H : 0 <= C.to_int (fh handle3)) by (vm_compute; discriminate).
  split; [exact H|].
  pose proof (basic_release_twice handle3 (initially greedy) H) as T.
  destruct (basic_release handle3 (initially greedy)) as [[r1 fi1] s1] eqn:E1.
  destruct (basic_release fi1 s1) as [[r2 fi2] s2] eqn:E2.
  destruct T as (_ & T1 & T2 & _ & _ & _ & T3).
  split; [exact T1|]. rewrite T3, T2. reflexivity.
Defined.

(** ** C5 at a session of one read and one write on descriptor 7 *)

Lemma session_closes_once_witness :
  Linux mock_backend
  /\ closes (since (initially one_file)
               (snd (session question_marks ByOpen (chars "/a") (mkFi 0 0)
                       [DoRead 3 0; DoWrite 3 2 0] (initially one_file))))
     = [7].
Proof.
  split; [exact mock_linux|].
  pose proof (session_closes_once (LX := mock_linux) question_marks ByOpen
                (chars "/a") (mkFi 0 0) [DoRead 3 0; DoWrite 3 2 0]
                (initially one_file)) as T.
  destruct (session question_marks ByOpen (chars "/a") (mkFi 0 0)
              [DoRead 3 0; DoWrite 3 2 0] (initially one_file))
    as [[rc fi'] s'] eqn:E.
  cbv zeta in T. cbn [snd].
  vm_compute in E. injection E as R _ Hs'.
  destruct (T (eq_sym R))
    as (fd & pathname & oflags & mode & io & Hev & Hfd & Hio & Hc & Hst).
  rewrite Hc. rewrite <- Hs' in Hev. vm_compute in Hev.
  injection Hev as _ _ _ Hfd7 _. now rewrite <- Hfd7.
Defined.

(** ** C6: a consumer with room for one entry is not shown the third *)

Lemma basic_readdir_stops_on_request :
  let run := basic_readdir question_marks (bounded_filler 1) (chars "/d") []
               (initially three_entries) in
  sys_lstat three_entries (chars "/tmp/fuse_data/d/c") = Ok (regular 3)
  /\ fst (fst run) = 0
  /\ map fst (offered (observed (snd run))) = [chars "a"; chars "b"]
  /\ snd (fst run) = [(chars "a", regular 1)].
Proof. vm_compute. repeat split. Qed.

(** ** C6 at a directory with one broken entry *)

Lemma basic_readdir_skips_unresolved_witness :
  sys_opendir (backend (initially broken_entry))
    (c_str (get_full_path (chars "/d") (question_marks PATH_MAX) PATH_MAX))
  = Ok [chars "a"; chars "b"; chars "c"]
  /\ let '(rc, buf', s') :=
       basic_readdir question_marks (bounded_filler 5) (chars "/d") []
         (initially broken_entry) in
     rc = 0
     /\ ~ In (chars "b") (map fst (offered (since (initially broken_entry) s'))).
Proof.
  assert (H : sys_opendir (backend (initially broken_entry))
                (c_str (get_full_path (chars "/d") (question_marks PATH_MAX)
                          PATH_MAX))
              = Ok [chars "a"; chars "b"; chars "c"])
    by (vm_compute; reflexivity).
  split; [exact H|].
  pose proof (basic_readdir_skips_unresolved question_marks (bounded_filler 5)
                (chars "/d") [] (initially broken_entry) _ H) as T.
  destruct (basic_readdir question_marks (bounded_filler 5) (chars "/d") []
              (initially broken_entry)) as [[rc buf'] s'].
  cbv zeta in T. destruct T as (T1 & _ & _ & _ & T2).
  split; [exact T1|].
  apply (T2 (chars "b") ENOENT). vm_compute. reflexivity.
Defined.

(** ** C9 at a directory in which nothing resolves *)

Lemma basic_readdir_succeeds_witness :
  sys_opendir (backend (initially all_broken))
    (c_str (get_full_path (chars "/d") (question_marks PATH_MAX) PATH_MAX))
  = Ok [chars "a"; chars "b"; chars "c"]
  /\ let '(rc, buf', s') :=
       basic_readdir question_marks (bounded_filler 5) (chars "/d") []
         (initially all_broken) in
     rc = 0 /\ offered (since (initially all_broken) s') = [] /\ buf' = [].
Proof.
  assert (H : sys_opendir (backend (initially all_broken))
                (c_str (get_full_path (chars "/d") (question_marks PATH_MAX)
                          PATH_MAX))
              = Ok [chars "a"; chars "b"; chars "c"])
    by (vm_compute; reflexivity).
  split; [exact H|].
  pose proof (basic_readdir_succeeds question_marks (bounded_filler 5)
                (chars "/d") [] (initially all_broken) _ H) as T.
  destruct (basic_readdir question_marks (bounded_filler 5) (chars "/d") []
              (initially all_broken)) as [[rc buf'] s'].
  destruct T as (T1 & T2). split; [exact T1|].
  apply T2. intros d_name Hd. exists ENOENT.
  destruct Hd as [<- | [<- | [<- | []]]]; vm_compute; reflexivity.
Defined.

(** * More of the code *)

(** ** Translation of paths *)

Lemma snprintf_string (buf : list ascii) (n : nat) (formatted : list ascii) :
  (0 < n)%nat -> ~ In NUL formatted ->
  c_str (snprintf buf n formatted) = firstn (n - 1) formatted.
Proof.
  intros Hn H. destruct n as [|m]; [lia|].
  replace (S m - 1)%nat with m by lia. now apply snprintf_c_str.
Qed.

Lemma get_full_path_string (path buf : list ascii) (n : nat) :
  (0 < n)%nat ->
  c_str (get_full_path path buf n) = firstn (n - 1) (DIR_PATH ++ c_str path).
Proof.
  intros Hn. unfold get_full_path.
  rewrite snprintf_string by (exact Hn || apply full_path_no_NUL).
  now rewrite DIR_PATH_c_str.
Qed.

Lemma PATH_MAX_pos : (0 < PATH_MAX)%nat.
Proof. unfold PATH_MAX. apply Nat.lt_0_succ. Qed.

Lemma DIR_PATH_fits : (List.length DIR_PATH <= PATH_MAX - 1)%nat.
Proof. apply Nat.leb_le. vm_compute. reflexivity. Qed.

(** The string [get_full_path] leaves in a buffer of [PATH_MAX] bytes. *)
Lemma translate_string (path buf : list ascii) :
  c_str (get_full_path path buf PATH_MAX)
  = firstn (PATH_MAX - 1) (DIR_PATH ++ c_str path).
Proof. apply get_full_path_string, PATH_MAX_pos. Qed.

(** X1. Translation is one to one on the paths that fit: two virtual paths
    whose backend paths fit in the buffer with their NUL and are equal are the
    same string. *)
Theorem get_full_path_injective (p1 p2 b1 b2 : list ascii) (out_size : nat) :
  (List.length (DIR_PATH ++ c_str p1) < out_size)%nat ->
  (List.length (DIR_PATH ++ c_str p2) < out_size)%nat ->
  c_str (get_full_path p1 b1 out_size) = c_str (get_full_path p2 b2 out_size) ->
  c_str p1 = c_str p2.
Proof.
  intros H1 H2 E.
  rewrite !get_full_path_string in E by lia.
  rewrite !firstn_all2 in E by lia.
  eapply app_inv_head. exact E.
Qed.

(** X2. Translation reads only the first [out_size - 1 - |DIR_PATH|] bytes
    of the virtual path: two paths that agree on them get the same backend
    path, however they go on. *)
Theorem get_full_path_reads_prefix (p1 p2 b1 b2 : list ascii) (out_size : nat) :
  (0 < out_size)%nat ->
  firstn (out_size - 1 - List.length DIR_PATH) (c_str p1)
  = firstn (out_size - 1 - List.length DIR_PATH) (c_str p2) ->
  c_str (get_full_path p1 b1 out_size) = c_str (get_full_path p2 b2 out_size).
Proof.
  intros Hn E. rewrite !get_full_path_string by exact Hn.
  rewrite !firstn_app. now rewrite E.
Qed.

(** A backend path begins with [DIR_PATH]. *)
Lemma translate_confined (path buf : list ascii) :
  confined (c_str (get_full_path path buf PATH_MAX)).
Proof.
  unfold confined. rewrite translate_string, firstn_firstn.
  rewrite (Nat.min_l _ _ DIR_PATH_fits), firstn_app, Nat.sub_diag, firstn_all.
  cbn [firstn]. apply app_nil_r.
Qed.

Lemma confined_length (pathname : list ascii) :
  confined pathname -> (List.length DIR_PATH <= List.length pathname)%nat.
Proof.
  unfold confined. intros H.
  assert (L : List.length (firstn (List.length DIR_PATH) pathname)
              = List.length DIR_PATH) by now rewrite H.
  rewrite length_firstn in L. lia.
Qed.

(** The path [basic_readdir] resolves for an entry, as a string. *)
Lemma child_path_string (indeterminate : nat -> list ascii)
  (fpath d_name : list ascii) :
  child_path indeterminate fpath d_name
  = firstn (PATH_MAX - 1) (c_str fpath ++ "/"%char :: c_str d_name).
Proof.
  unfold child_path. apply snprintf_string; [apply PATH_MAX_pos|].
  intros H. apply in_app_or in H. destruct H as [H | [H | H]].
  - exact (c_str_no_NUL _ H).
  - discriminate H.
  - exact (c_str_no_NUL _ H).
Qed.

Lemma child_path_confined (indeterminate : nat -> list ascii)
  (fpath d_name : list ascii) :
  confined (c_str fpath) ->
  confined (child_path indeterminate fpath d_name).
Proof.
  intros H. pose proof (confined_length _ H) as L. unfold confined in *.
  rewrite child_path_string, firstn_firstn.
  rewrite (Nat.min_l _ _ DIR_PATH_fits), firstn_app.
  replace (List.length DIR_PATH - List.length (c_str fpath))%nat with 0%nat by lia.
  rewrite H. cbn [firstn]. apply app_nil_r.
Qed.

(** ** X1 and X2 at a buffer of 20 bytes *)

Lemma get_full_path_injective_witness :
  let p1 := chars "/a" in
  let p2 := chars "/a" ++ [NUL; "z"%char] in
  (List.length (DIR_PATH ++ c_str p1) < 20)%nat
  /\ (List.length (DIR_PATH ++ c_str p2) < 20)%nat
  /\ c_str (get_full_path p1 (question_marks 20) 20)
     = c_str (get_full_path p2 (repeat "!"%char 20) 20)
  /\ c_str p1 = c_str p2.
Proof.
  intros p1 p2.
  assert (H1 : (List.length (DIR_PATH ++ c_str p1) < 20)%nat)
    by (apply Nat.ltb_lt; reflexivity).
  assert (H2 : (List.length (DIR_PATH ++ c_str p2) < 20)%nat)
    by (apply Nat.ltb_lt; reflexivity).
  assert (E : c_str (get_full_path p1 (question_marks 20) 20)
              = c_str (get_full_path p2 (repeat "!"%char 20) 20))
    by reflexivity.
  split; [exact H1|]. split; [exact H2|]. split; [exact E|].
  exact (get_full_path_injective p1 p2 (question_marks 20)
           (repeat "!"%char 20) 20 H1 H2 E).
Defined.

Lemma get_full_path_reads_prefix_witness :
  (0 < 20)%nat
  /\ c_str (get_full_path (chars "/hello.txt") (question_marks 20) 20)
     = c_str (get_full_path (chars "/hellfire") (question_marks 20) 20).
Proof.
  split; [lia|].
  apply (get_full_path_reads_prefix (chars "/hello.txt") (chars "/hellfire")
           (question_marks 20) (question_marks 20) 20); [lia | reflexivity].
Defined.

(** ** More on the directory listing *)

Section MoreReaddirProperties.

Context {W : Type} {BE : Backend W}.
Variable indeterminate : nat -> list ascii.
Context {B : Type}.
Variable filler : B -> list ascii -> stat -> Z -> Z -> Z * B.

Lemma lstat_paths_app (a b : list event) :
  lstat_paths (a ++ b) = lstat_paths a ++ lstat_paths b.
Proof. apply flat_map_app. Qed.

(** The calls of the loop: [readdir], then [lstat] on the child of the entry
    read, then the callback; the children resolved are those of the first
    entries of the stream, in order. *)
Lemma readdir_loop_calls (P : event -> Prop) (fpath : list ascii)
  (dp : list (list ascii)) :
  (forall de, P (Readdir de)) ->
  (forall d_name r, P (Lstat (child_path indeterminate fpath d_name) r)) ->
  (forall d_name st res, P (Filler d_name st 0 0 res)) ->
  forall (buf : B) (s : state W),
    exists evs,
      observed (snd (readdir_loop indeterminate filler fpath dp buf s))
      = observed s ++ evs
      /\ Forall P evs
      /\ exists k,
           lstat_paths evs
           = map (child_path indeterminate fpath) (firstn k dp).
Proof.
  intros PR PL PF.
  induction dp as [|d_name dp IH]; intros buf s.
  - rewrite readdir_loop_end. exists [Readdir None]. cbn [snd observed].
    split; [reflexivity|]. split; [repeat constructor; apply PR|].
    exists 0%nat. reflexivity.
  - rewrite readdir_loop_entry. cbv zeta.
    set (child := child_path indeterminate fpath d_name).
    assert (Hnext : forall r (buf1 : B) (s1 : state W) (more : list event),
               observed s1
               = observed s ++ Readdir (Some d_name) :: Lstat child r :: more ->
               Forall P more -> lstat_paths more = [] ->
               exists evs,
                 observed (snd (readdir_loop indeterminate filler fpath dp buf1 s1))
                 = observed s ++ evs
                 /\ Forall P evs
                 /\ exists k,
                      lstat_paths evs
                      = map (child_path indeterminate fpath)
                          (firstn k (d_name :: dp))).
    { intros r buf1 s1 more Hs1 Pmore Lmore.
      destruct (IH buf1 s1) as (evs & Hobs & HP & k & Hk).
      exists (Readdir (Some d_name) :: Lstat child r :: more ++ evs).
      split; [rewrite Hobs, Hs1; now rewrite <- app_assoc|].
      split.
      - constructor; [apply PR|]. constructor; [apply PL|].
        apply Forall_app. now split.
      - exists (S k). cbn [lstat_paths flat_map app firstn map].
        fold (lstat_paths (more ++ evs)).
        rewrite lstat_paths_app, Lmore, Hk. reflexivity. }
    destruct (sys_lstat (backend s) child) as [e | st].
    + apply (Hnext (Failed e) buf _ []); [reflexivity | constructor | reflexivity].
    + destruct (filler buf d_name st 0 0) as [res buf'].
      destruct (res =? 0).
      * apply (Hnext (Ok st) buf' _ [Filler d_name st 0 0 res]).
        -- cbn [observed]. now rewrite <- app_assoc.
        -- repeat constructor. apply PF.
        -- reflexivity.
      * exists [Readdir (Some d_name); Lstat child (Ok st); Filler d_name st 0 0 res].
        cbn [snd observed]. split; [now rewrite <- app_assoc|]. split.
        -- repeat constructor; [apply PR | apply PL | apply PF].
        -- exists 1%nat. reflexivity.
Qed.

(** What [basic_readdir] does, by the answer of [opendir]. *)
Lemma basic_readdir_calls (path : list ascii) (buf : B) (s : state W) :
  let fpath := get_full_path path (indeterminate PATH_MAX) PATH_MAX in
  let run := basic_readdir indeterminate filler path buf s in
  backend (snd run) = backend s
  /\ match sys_opendir (backend s) (c_str fpath) with
     | Failed e =>
         fst run = (- e, buf)
         /\ since s (snd run) = [Opendir (c_str fpath) (Failed e)]
     | Ok dp =>
         fst (fst run) = 0
         /\ exists inner,
              since s (snd run)
              = Opendir (c_str fpath) (Ok dp) :: inner ++ [Closedir]
              /\ Forall (fun e => listing_call e = true
                                  /\ Forall confined (paths_of e)) inner
              /\ exists k,
                   lstat_paths inner
                   = map (child_path indeterminate fpath) (firstn k dp)
     end.
Proof.
  intros fpath run.
  destruct (sys_opendir (backend s) (c_str fpath)) as [e | dp] eqn:Hopen.
  - subst run. unfold basic_readdir, bind, opendir, ret. fold fpath.
    rewrite Hopen. cbn [fst snd backend].
    split; [reflexivity|]. split; [reflexivity|]. now apply since_app.
  - subst run. rewrite (basic_readdir_open indeterminate filler path buf s dp Hopen).
    fold fpath.
    set (s1 := mkState (backend s) (observed s ++ [Opendir (c_str fpath) (Ok dp)])).
    destruct (readdir_loop_run indeterminate filler fpath dp buf s1)
      as (evs0 & _ & Hbk & _).
    cbv zeta in Hbk.
    destruct (readdir_loop_calls
                (fun e => listing_call e = true /\ Forall confined (paths_of e))
                fpath dp) with (buf := buf) (s := s1)
      as (inner & Hobs & HP & Hk).
    { intros de. split; [reflexivity | constructor]. }
    { intros d r. split; [reflexivity|]. cbn [paths_of].
      constructor; [|constructor].
      apply child_path_confined, translate_confined. }
    { intros d st res. split; [reflexivity | constructor]. }
    destruct (readdir_loop indeterminate filler fpath dp buf s1) as [buf' s2].
    cbn [fst snd backend observed] in *.
    split; [exact Hbk|]. split; [reflexivity|].
    exists inner. split; [|split; assumption].
    apply since_app. rewrite Hobs. unfold s1. cbn [observed].
    now rewrite <- !app_assoc.
Qed.

Lemma lstat_paths_listing (name : list ascii) (res : result (list (list ascii)))
  (inner : list event) :
  lstat_paths (Opendir name res :: inner ++ [Closedir]) = lstat_paths inner.
Proof.
  change (Opendir name res :: inner ++ [Closedir])
    with ([Opendir name res] ++ inner ++ [Closedir]).
  rewrite !lstat_paths_app. cbn. apply app_nil_r.
Qed.

(** X3. [basic_readdir] closes the directory it opened, once, as its last
    call, whether the listing ran to its end or the callback stopped it;
    between [opendir] and [closedir] it only reads entries, resolves them and
    calls the callback. When [opendir] fails it returns minus its [errno]
    after that one call, with the consumer's buffer untouched. In both cases
    the backend store is as before. *)
Theorem basic_readdir_closes_what_it_opens (path : list ascii) (buf : B)
  (s : state W) :
  let fpath := get_full_path path (indeterminate PATH_MAX) PATH_MAX in
  let '(rc, buf', s') := basic_readdir indeterminate filler path buf s in
  backend s' = backend s
  /\ match sys_opendir (backend s) (c_str fpath) with
     | Failed e =>
         rc = - e /\ buf' = buf
         /\ since s s' = [Opendir (c_str fpath) (Failed e)]
     | Ok dp =>
         rc = 0
         /\ exists inner,
              since s s' = Opendir (c_str fpath) (Ok dp) :: inner ++ [Closedir]
              /\ forallb listing_call inner = true
     end.
Proof.
  intros fpath.
  pose proof (basic_readdir_calls path buf s) as H. cbv zeta in H. fold fpath in H.
  destruct (basic_readdir indeterminate filler path buf s) as [[rc buf'] s'].
  cbn [fst snd] in H. destruct H as [Hbk H]. split; [exact Hbk|].
  destruct (sys_opendir (backend s) (c_str fpath)) as [e | dp].
  - destruct H as [Hr Hs]. injection Hr as -> ->. now repeat split.
  - destruct H as [Hr (inner & Hs & HP & _)]. split; [exact Hr|].
    exists inner. split; [exact Hs|].
    apply forallb_forall. intros e He.
    rewrite Forall_forall in HP. now apply HP.
Qed.

(** X5. The paths [basic_readdir] resolves are those of the entries it read,
    in order, each the directory's backend path, a slash and the name, cut to
    [PATH_MAX - 1] bytes: nothing is done about a slash the directory's path
    ends with. *)
Theorem basic_readdir_resolves_children (path : list ascii) (buf : B)
  (s : state W) (dp : list (list ascii)) :
  let fpath := get_full_path path (indeterminate PATH_MAX) PATH_MAX in
  (List.length (DIR_PATH ++ c_str path) < PATH_MAX)%nat ->
  sys_opendir (backend s) (c_str fpath) = Ok dp ->
  exists k,
    lstat_paths (since s (snd (basic_readdir indeterminate filler path buf s)))
    = map (fun d_name =>
             firstn (PATH_MAX - 1)
               (DIR_PATH ++ c_str path ++ "/"%char :: c_str d_name))
        (firstn k dp).
Proof.
  intros fpath Hfit Hopen.
  pose proof (basic_readdir_calls path buf s) as H. cbv zeta in H. fold fpath in H.
  rewrite Hopen in H. destruct H as (_ & _ & inner & Hs & _ & k & Hk).
  exists k. rewrite Hs, lstat_paths_listing, Hk.
  apply map_ext. intros d_name. rewrite child_path_string.
  unfold fpath. rewrite translate_string.
  rewrite (firstn_all2 (DIR_PATH ++ c_str path)) by lia.
  now rewrite <- app_assoc.
Qed.

(** X6. The listing and [basic_getattr] agree: the metadata handed to the
    callback for the entry [name] of the directory [path] is what
    [basic_getattr] returns for the path made of [path], a slash and [name],
    on the same store, when that path fits in [PATH_MAX] bytes with the
    backend directory before it. *)
Theorem readdir_agrees_with_getattr (path : list ascii) (buf : B)
  (s : state W) (name : list ascii) (st stbuf : stat) (s2 : state W) :
  (List.length (DIR_PATH ++ c_str path ++ "/"%char :: c_str name) < PATH_MAX)%nat ->
  In (name, st)
    (offered (since s (snd (basic_readdir indeterminate filler path buf s)))) ->
  backend s2 = backend s ->
  fst (basic_getattr indeterminate (c_str path ++ "/"%char :: c_str name) stbuf s2)
  = (0, st).
Proof.
  intros Hfit Hin Hbk.
  set (fpath := get_full_path path (indeterminate PATH_MAX) PATH_MAX).
  assert (Hlen : (List.length (DIR_PATH ++ c_str path) < PATH_MAX)%nat).
  { rewrite !length_app in *. cbn [List.length] in Hfit. lia. }
  assert (Hres : sys_lstat (backend s)
                   (DIR_PATH ++ c_str path ++ "/"%char :: c_str name) = Ok st).
  { destruct (sys_opendir (backend s) (c_str fpath)) as [e | dp] eqn:Hopen.
    - pose proof (basic_readdir_calls path buf s) as H. cbv zeta in H.
      fold fpath in H. rewrite Hopen in H. destruct H as (_ & _ & Hs).
      rewrite Hs in Hin. contradiction Hin.
    - destruct (basic_readdir_run indeterminate filler path buf s dp Hopen)
        as (inner & buf' & s' & Hrun & _ & Hoff & Hfeed & _).
      fold fpath in Hfeed. rewrite Hrun in Hin. cbn [snd] in Hin.
      rewrite Hoff in Hin.
      destruct (feed_prefix filler
                  (resolvable (backend s) indeterminate fpath dp) buf)
        as (rest & Hrest).
      rewrite <- Hfeed in Hrest. cbn [fst] in Hrest.
      assert (Hexp : In (name, st) (resolvable (backend s) indeterminate fpath dp))
        by (rewrite Hrest; apply in_or_app; now left).
      apply resolvable_In in Hexp. destruct Hexp as [_ Hok].
      rewrite child_path_string in Hok. unfold fpath in Hok.
      rewrite translate_string, (firstn_all2 (DIR_PATH ++ c_str path)) in Hok by lia.
      rewrite <- app_assoc, firstn_all2 in Hok by lia. exact Hok. }
  unfold basic_getattr. unfold_calls. rewrite translate_string.
  assert (Hnn : ~ In NUL (c_str path ++ "/"%char :: c_str name)).
  { intros H. apply in_app_or in H. destruct H as [H | [H | H]];
      [exact (c_str_no_NUL _ H) | discriminate H | exact (c_str_no_NUL _ H)]. }
  rewrite (c_str_id _ Hnn), firstn_all2 by lia.
  rewrite Hbk, Hres. reflexivity.
Qed.


End MoreReaddirProperties.

(** ** More on write, create and open *)

Lemma to_off_t_id (z : Z) : - 2 ^ 63 <= z < 2 ^ 63 -> C.to_off_t z = z.
Proof.
  unfold C.to_off_t. intros H.
  change (2 ^ 63) with 9223372036854775808 in *.
  change (2 ^ 64) with 18446744073709551616.
  rewrite Z.mod_small; lia.
Qed.

(** [fi->flags & O_APPEND] is non-zero exactly when bit 10 of the flags is
    set. *)
Lemma land_O_APPEND (a : Z) :
  (Z.land a O_APPEND =? 0) = negb (Z.testbit a 10).
Proof.
  change O_APPEND with (2 ^ 10).
  destruct (Z.testbit a 10) eqn:T; cbn [negb].
  - apply Z.eqb_neq. intros H.
    assert (F : Z.testbit (Z.land a (2 ^ 10)) 10 = false)
      by (rewrite H; apply Z.bits_0).
    rewrite Z.land_spec, T, Z.pow2_bits_true in F by lia. discriminate F.
  - apply Z.eqb_eq. apply Z.bits_inj'. intros n Hn.
    rewrite Z.land_spec, Z.bits_0, Z.pow2_bits_eqb by lia.
    destruct (Z.eqb_spec 10 n) as [<- | Hne]; [now rewrite T|].
    apply andb_false_r.
Qed.

Section MoreSessionProperties.

Context {W : Type} {BE : Backend W} {LX : Linux BE}.
Variable indeterminate : nat -> list ascii.

(** The loop from [p] accepted bytes of [total]. *)
Lemma write_loop_tail_writes (fuel : nat) :
  forall (fd size total offset p : Z) (s : state W),
    0 <= p <= total -> 0 <= offset -> offset + total < 2 ^ 63 ->
    exists evs,
      observed (snd (write_loop fuel fd size (total - p) p (offset + p) s))
      = observed s ++ evs
      /\ tail_writes fd total offset p evs = true.
Proof.
  induction fuel as [|fuel IH]; intros fd size total offset p s Hp Ho Ht;
    destruct (Z_lt_le_dec 0 (total - p)) as [G | G];
    try (rewrite write_loop_done by exact G; exists [];
         now rewrite app_nil_r).
  - rewrite write_loop_out_of_fuel by exact G. exists []. now rewrite app_nil_r.
  - rewrite write_loop_iteration by exact G.
    destruct (sys_pwrite (backend s) fd p (total - p) (offset + p))
      as [res w] eqn:E. cbv zeta.
    set (ev := Pwrite fd p (total - p) (offset + p) res).
    set (s1 := mkState w (observed s ++ [ev])).
    assert (Hstep : forall (n : Z) (run : option Z * state W),
               n = match res with Ok n => n | Failed _ => 0 end ->
               (exists evs, observed (snd run) = observed s1 ++ evs
                            /\ tail_writes fd total offset (p + n) evs = true) ->
               exists evs, observed (snd run) = observed s ++ evs
                           /\ tail_writes fd total offset p evs = true).
    { intros n run Hn (evs & Hobs & Htw). exists (ev :: evs). split.
      - rewrite Hobs. unfold s1. cbn [observed]. now rewrite <- app_assoc.
      - unfold ev. cbn [tail_writes]. rewrite !Z.eqb_refl. cbn [andb].
        rewrite <- Hn. exact Htw. }
    destruct res as [e | n].
    + destruct (e =? EINTR).
      * apply (Hstep 0); [reflexivity|].
        rewrite Z.add_0_r. apply IH; assumption.
      * apply (Hstep 0); [reflexivity|]. exists []. cbn [snd].
        now rewrite app_nil_r.
    + pose proof (pwrite_count _ _ _ _ _ _ _ (Z.lt_le_incl _ _ G) E) as Hn.
      change (2 ^ 63) with 9223372036854775808 in Ht.
      rewrite to_size_t_id
        by (change (2 ^ 64) with 18446744073709551616; lia).
      rewrite to_off_t_id
        by (change (2 ^ 63) with 9223372036854775808; lia).
      apply (Hstep n); [reflexivity|].
      replace (total - p - n) with (total - (p + n)) by lia.
      replace (offset + p + n) with (offset + (p + n)) by lia.
      apply IH; [lia | assumption |].
      change (2 ^ 63) with 9223372036854775808. lia.
Qed.

(** X7. The calls of a write of [size] bytes at [offset] (the last byte
    within the range of [off_t]) leave no gap and no overlap: the first is a
    [pwrite] of the whole buffer at [offset], and after [p] accepted bytes
    the next is a [pwrite] of the bytes of the buffer from [p] on, [size - p]
    of them, at [offset + p]; an interrupted call is repeated as it was. *)
Theorem basic_write_tail_writes (fuel : nat) (fi : fuse_file_info)
  (size offset : Z) (s : state W) :
  0 <= size -> 0 <= offset -> offset + size < 2 ^ 63 ->
  tail_writes (C.to_int (fh fi)) size offset 0
    (since s (snd (basic_write fuel fi size offset s))) = true.
Proof.
  intros Hs Ho Ht. unfold basic_write.
  destruct (write_loop_tail_writes fuel (C.to_int (fh fi)) size size offset 0 s)
    as (evs & Hobs & Htw); [lia | assumption | assumption |].
  rewrite Z.sub_0_r, Z.add_0_r in Hobs.
  now rewrite (since_app _ _ _ Hobs).
Qed.

(** X8. [basic_create] opens with [O_CREAT | O_WRONLY] (65), and with
    [O_APPEND] besides (1089) exactly when the consumer's flags have it: no
    other flag of [fi->flags] reaches the backend; the mode is passed as it
    is. *)
Theorem basic_create_flags (path : list ascii) (mode : Z) (fi : fuse_file_info)
  (s : state W) :
  exists res,
    since s (snd (basic_create indeterminate path mode fi s))
    = [Open (c_str (get_full_path path (indeterminate PATH_MAX) PATH_MAX))
         (if Z.testbit (flags fi) 10 then 1089 else 65) (Some mode) res].
Proof.
  unfold basic_create. unfold_calls. cbv zeta. rewrite land_O_APPEND.
  destruct (Z.testbit (flags fi) 10); cbn [negb];
    destruct (sys_open _ _ _ _) as [res w']; exists res;
    destruct res as [e | fd]; apply since_app; reflexivity.
Qed.

(** X9. [basic_open] and [basic_create] make one [open] and keep the
    flags of the handle. When it succeeds they return 0 and the handle reads
    back, through [(int) fi->fh], as the descriptor the backend returned;
    when it fails they return minus its [errno], a negative number, and the
    handle is untouched. *)
Theorem open_binds_descriptor (how : opener) (path : list ascii)
  (fi : fuse_file_info) (s : state W) :
  let '(rc, fi', s') :=
    match how with
    | ByOpen => basic_open indeterminate path fi
    | ByCreate m => basic_create indeterminate path m fi
    end s in
  flags fi' = flags fi
  /\ exists pathname oflags mode res,
       since s s' = [Open pathname oflags mode res]
       /\ match res with
          | Ok fd => rc = 0 /\ C.to_int (fh fi') = fd
          | Failed e => rc = - e /\ rc < 0 /\ fi' = fi
          end.
Proof.
  destruct (opener_run indeterminate how path fi s)
    as (pathname & oflags & mode & ->).
  destruct (sys_open (backend s) pathname oflags mode) as [[e | fd] w'] eqn:E.
  - split; [reflexivity|]. exists pathname, oflags, mode, (Failed e).
    split; [now apply since_app|].
    apply open_errno in E. repeat split. lia.
  - split; [reflexivity|]. exists pathname, oflags, mode, (Ok fd).
    split; [now apply since_app|].
    split; [reflexivity|]. cbn [fh]. apply fd_round_trip.
    exact (open_fd _ _ _ _ _ _ E).
Qed.

End MoreSessionProperties.

(** ** unlink, mkdir, rmdir, chmod, truncate, utimens *)

Section MetadataProperties.

Context {W : Type} {MC : MetadataCalls W} {ME : MetadataErrno MC}.
Variable indeterminate : nat -> list ascii.

(** Each of the six operations is its system call on the translated path. *)
Lemma basic_oper_metadata_call (rq : metadata_request) (w : W) :
  basic_oper_metadata indeterminate rq w
  = let (res, w') :=
      backend_call rq
        (c_str (get_full_path (requested_path rq) (indeterminate PATH_MAX)
                  PATH_MAX)) w in
    (match res with Failed e => - e | Ok _ => 0 end, w').
Proof.
  destruct rq; cbn [basic_oper_metadata backend_call requested_path];
    [unfold basic_unlink | unfold basic_mkdir | unfold basic_rmdir
     | unfold basic_chmod | unfold basic_truncate | unfold basic_utimens];
    cbv zeta;
    match goal with
    | |- context [let (_, _) := ?c in _] => destruct c as [[e | u] w']
    end; reflexivity.
Qed.

Lemma backend_call_errno (rq : metadata_request) (fpath : list ascii)
  (w w' : W) (e : Z) :
  backend_call rq fpath w = (Failed e, w') -> 0 < e.
Proof.
  destruct rq; cbn [backend_call]; intros H;
    [eapply unlink_errno | eapply mkdir_errno | eapply rmdir_errno
     | eapply chmod_errno | eapply truncate_errno | eapply utimensat_errno];
    exact H.
Qed.

(** X10. Each of [basic_unlink], [basic_mkdir], [basic_rmdir],
    [basic_chmod], [basic_truncate] and [basic_utimens] is one system call
    on [DIR_PATH ++ path] cut to [PATH_MAX - 1] bytes, a path under the
    backend directory, whatever the stack held; it returns 0 when the call
    succeeds and minus its [errno], a negative number, when it fails, and
    leaves the store as the call left it. *)
Theorem metadata_operations_forward (rq : metadata_request) (w : W) :
  let fpath := firstn (PATH_MAX - 1) (DIR_PATH ++ c_str (requested_path rq)) in
  let (res, w') := backend_call rq fpath w in
  basic_oper_metadata indeterminate rq w
  = (match res with Failed e => - e | Ok _ => 0 end, w')
  /\ confined fpath
  /\ (fst (basic_oper_metadata indeterminate rq w) <= 0)
  /\ (fst (basic_oper_metadata indeterminate rq w) = 0 <->
      exists u, res = Ok u).
Proof.
  intros fpath. rewrite basic_oper_metadata_call, translate_string. fold fpath.
  assert (Hc : confined fpath)
    by (unfold fpath; rewrite <- translate_string with (buf := []);
        apply translate_confined).
  destruct (backend_call rq fpath w) as [[e | u] w'] eqn:E; cbn [fst].
  - apply backend_call_errno in E.
    split; [reflexivity|]. split; [exact Hc|]. split; [lia|].
    split; [lia | intros (u & Hu); discriminate Hu].
  - split; [reflexivity|]. split; [exact Hc|]. split; [lia|].
    split; [intros _; now exists u | reflexivity].
Qed.

(** X11. The six operations cannot tell apart two virtual paths that agree
    on their first [PATH_MAX - 1 - |DIR_PATH|] bytes: the same request on
    either makes the same call, with the same result and the same store
    after. *)
Theorem metadata_operations_alias (rq : metadata_request)
  (p1 p2 : list ascii) (w : W) :
  firstn (PATH_MAX - 1 - List.length DIR_PATH) (c_str p1)
  = firstn (PATH_MAX - 1 - List.length DIR_PATH) (c_str p2) ->
  basic_oper_metadata indeterminate (with_path rq p1) w
  = basic_oper_metadata indeterminate (with_path rq p2) w.
Proof.
  intros H. rewrite !basic_oper_metadata_call.
  assert (Hp : forall p, requested_path (with_path rq p) = p)
    by (intros p; destruct rq; reflexivity).
  assert (Hk : forall p q f, backend_call (with_path rq p) f w
                             = backend_call (with_path rq q) f w)
    by (intros p q f; destruct rq; reflexivity).
  rewrite !Hp, !translate_string, !firstn_app, H. rewrite (Hk p1 p2).
  reflexivity.
Qed.

End MetadataProperties.

(** * More of the code, on the scripted backends *)

(** The store of names sets a positive [errno]. *)
Lemma names_errno : MetadataErrno names_backend.
Proof.
  constructor;
    cbn [sys_unlink sys_mkdir sys_rmdir sys_chmod sys_truncate sys_utimensat
         names_backend];
    unfold on_existing; intros;
    match goal with
    | H : (if ?c then _ else _) = _ |- _ => destruct c; inversion H
    end; unfold ENOENT, EEXIST; lia.
Qed.

(** ** X5 and X6 at the backend directory itself: the slash is doubled *)

Lemma basic_readdir_resolves_children_witness :
  (List.length (DIR_PATH ++ c_str (chars "/")) < PATH_MAX)%nat
  /\ sys_opendir (backend (initially root_listing))
       (c_str (get_full_path (chars "/") (question_marks PATH_MAX) PATH_MAX))
     = Ok [chars "a"]
  /\ exists k,
       lstat_paths
         (since (initially root_listing)
            (snd (basic_readdir question_marks (bounded_filler 5) (chars "/") []
                    (initially root_listing))))
       = map (fun d_name =>
                firstn (PATH_MAX - 1)
                  (DIR_PATH ++ c_str (chars "/") ++ "/"%char :: c_str d_name))
           (firstn k [chars "a"]).
Proof.
  assert (H1 : (List.length (DIR_PATH ++ c_str (chars "/")) < PATH_MAX)%nat)
    by (apply Nat.ltb_lt; vm_compute; reflexivity).
  assert (H2 : sys_opendir (backend (initially root_listing))
                 (c_str (get_full_path (chars "/") (question_marks PATH_MAX)
                           PATH_MAX))
               = Ok [chars "a"])
    by (vm_compute; reflexivity).
  split; [exact H1|]. split; [exact H2|].
  exact (basic_readdir_resolves_children question_marks (bounded_filler 5)
           (chars "/") [] (initially root_listing) [chars "a"] H1 H2).
Defined.

Lemma readdir_agrees_with_getattr_witness :
  (List.length (DIR_PATH ++ c_str (chars "/") ++ "/"%char :: c_str (chars "a"))
   < PATH_MAX)%nat
  /\ In (chars "a", regular 1)
       (offered
          (since (initially root_listing)
             (snd (basic_readdir question_marks (bounded_filler 5) (chars "/") []
                     (initially root_listing)))))
  /\ fst (basic_getattr question_marks (chars "//a") (regular 0)
            (initially root_listing))
     = (0, regular 1).
Proof.
  assert (H1 : (List.length
                  (DIR_PATH ++ c_str (chars "/") ++ "/"%char :: c_str (chars "a"))
                < PATH_MAX)%nat)
    by (apply Nat.ltb_lt; vm_compute; reflexivity).
  assert (H2 : In (chars "a", regular 1)
                 (offered
                    (since (initially root_listing)
                       (snd (basic_readdir question_marks (bounded_filler 5)
                               (chars "/") [] (initially root_listing))))))
    by (vm_compute; left; reflexivity).
  split; [exact H1|]. split; [exact H2|].
  exact (readdir_agrees_with_getattr question_marks (bounded_filler 5)
           (chars "/") [] (initially root_listing) (chars "a") (regular 1)
           (regular 0) (initially root_listing) H1 H2 eq_refl).
Defined.

(** ** X7 at 10 bytes written at offset 100 in four calls *)

Lemma basic_write_tail_writes_witness :
  Linux mock_backend
  /\ 0 <= 10 /\ 0 <= 100 /\ 100 + 10 < 2 ^ 63
  /\ tail_writes (C.to_int (fh handle3)) 10 100 0
       (since (initially stuttering)
          (snd (basic_write 5 handle3 10 100 (initially stuttering)))) = true.
Proof.
  assert (H1 : 0 <= 10) by lia. assert (H2 : 0 <= 100) by lia.
  assert (H3 : 100 + 10 < 2 ^ 63) by reflexivity.
  split; [exact mock_linux|]. split; [exact H1|]. split; [exact H2|].
  split; [exact H3|].
  exact (basic_write_tail_writes (LX := mock_linux) 5 handle3 10 100
           (initially stuttering) H1 H2 H3).
Defined.

(** ** X9 at an open that returns descriptor 7 *)

Lemma open_binds_descriptor_witness :
  Linux mock_backend
  /\ C.to_int (fh (snd (fst (basic_open question_marks (chars "/a") (mkFi 0 0)
                               (initially one_file))))) = 7.
Proof.
  split; [exact mock_linux|].
  pose proof (open_binds_descriptor (LX := mock_linux) question_marks ByOpen
                (chars "/a") (mkFi 0 0) (initially one_file)) as T.
  cbv beta iota in T.
  destruct (basic_open question_marks (chars "/a") (mkFi 0 0)
              (initially one_file)) as [[rc fi'] s'] eqn:E.
  cbn [fst snd].
  destruct T as (_ & pathname & oflags & mode & res & Hs & Hres).
  vm_compute in E. injection E as _ _ Hs'.
  rewrite <- Hs' in Hs. vm_compute in Hs. injection Hs as _ _ _ Hr.
  rewrite <- Hr in Hres. exact (proj2 Hres).
Defined.

(** ** X10 at the removal of a directory that is not there *)

Lemma metadata_operations_forward_witness :
  MetadataErrno names_backend
  /\ basic_oper_metadata question_marks (Rmdir (chars "/d")) []
     = (- ENOENT, []).
Proof.
  split; [exact names_errno|].
  pose proof (metadata_operations_forward (ME := names_errno) question_marks
                (Rmdir (chars "/d")) []) as T.
  cbv zeta in T.
  destruct (backend_call (Rmdir (chars "/d"))
              (firstn (PATH_MAX - 1)
                 (DIR_PATH ++ c_str (requested_path (Rmdir (chars "/d"))))) [])
    as [res w'] eqn:E.
  vm_compute in E. injection E as <- <-.
  exact (proj1 T).
Defined.

(** ** X11 at two paths of 4082 bytes that differ in the last *)

Lemma metadata_operations_alias_witness :
  firstn (PATH_MAX - 1 - List.length DIR_PATH) (c_str (long_path 4080 "a"))
  = firstn (PATH_MAX - 1 - List.length DIR_PATH) (c_str (long_path 4080 "b"))
  /\ basic_oper_metadata question_marks (Unlink (long_path 4080 "a")) []
     = basic_oper_metadata question_marks (Unlink (long_path 4080 "b")) [].
Proof.
  assert (H : firstn (PATH_MAX - 1 - List.length DIR_PATH)
                (c_str (long_path 4080 "a"))
              = firstn (PATH_MAX - 1 - List.length DIR_PATH)
                  (c_str (long_path 4080 "b")))
    by (vm_compute; reflexivity).
  split; [exact H|].
  exact (metadata_operations_alias question_marks (Unlink [])
           (long_path 4080 "a") (long_path 4080 "b") [] H).
Defined.
